(** * MyVector: RawMemory<T> and Vector<T> (src/MyVector/vector.h)

    A shallow embedding of the two class templates of vector.h and the
    properties of the growable array built on raw storage.

    Modelling conventions.
    - [size_t] and [int] counts are natural numbers; allocation succeeds.
    - A block of raw storage is a list of slots.  A slot either holds no
      object ([None]) or a live object of type [T] ([Some x]).  A block is
      owned by exactly one [RawMemory], so a [RawMemory] carries the slots
      its pointer leads to; the null pointer is the block without slots.
    - Pointers and iterators into a block are offsets from its start.  The
      references and iterators the member functions return are left out.
    - The element type enters through the class [Element]: the values
      produced by value- and default-initialisation, the state a move leaves
      in its source, and the compile-time choice made by
      [MoveOrCopyUninitialized].
    - Exceptions come from the copy constructor of [T] only; moves,
      assignments and default constructors do not throw.  The [World]
      carries a countdown that makes one chosen invocation of the copy
      constructor throw, and a ledger of the objects whose storage was
      released while they were alive.
    - A constructor argument is a value; it does not alias an element of
      the vector it is inserted into.
    - A step outside the contracts of the code (access outside a block, use
      of a slot that holds no object, construction over a live object) is
      undefined behaviour in C++; it is the outcome [Undefined] here.
    - Vectors that are assigned or swapped are named by references into a
      store, so that [this] and [other] may be the same object. *)

From stdpp Require Import base option list gmap.

Set Default Proof Using "Type*".

(** ** The element type *)

Class Element (T : Type) := {
  (** [T()] : value-initialisation *)
  value_init : T;
  (** [T t;] : default-initialisation *)
  default_init : T;
  (** what a move constructor or move assignment leaves in its source *)
  moved_from : T → T;
  (** [is_nothrow_move_constructible_v<T> || !is_copy_constructible_v<T>] *)
  relocate_by_move : bool
}.

(** [int]: default-initialisation performs no initialisation, the object
    holds an indeterminate value; value-initialisation zeroes it. *)
Inductive IntObj : Set :=
| Indeterminate
| IntVal (z : Z).

#[export] Instance int_Element : Element IntObj := {|
  value_init := IntVal 0;
  default_init := Indeterminate;
  moved_from := λ x, x;
  relocate_by_move := true
|}.

(** A class type with a user-provided default constructor, a copy
    constructor that may throw and a move constructor that is not declared
    [noexcept]: relocation copies.  A moved-from object holds 0. *)
Inductive Tracked : Set :=
| Obj (id : nat).

#[export] Instance Tracked_Element : Element Tracked := {|
  value_init := Obj 0;
  default_init := Obj 0;
  moved_from := λ _, Obj 0;
  relocate_by_move := false
|}.

(** ** Slots, blocks and outcomes *)

(** A slot holds no object ([None]) or a live one; a block is a run of
    slots. *)
Abbreviation Slot T := (option T).
Abbreviation Block T := (list (option T)).

Section Model.
Context {T : Type} `{!Element T}.

(** [budget = None]: the copy constructor never throws.
    [budget = Some k]: the next [k] invocations succeed, the one after
    them throws, the later ones succeed.
    [leaked]: objects that were alive in a block at its deallocation. *)
Record World : Type := mkWorld {
  budget : option nat;
  leaked : list T
}.

Inductive Res (S : Type) : Type :=
| Ok (s : S) (w : World)     (* normal return *)
| Exn (s : S) (w : World)    (* an exception leaves the call *)
| Undefined.                 (* contract violation *)
Global Arguments Ok {S} s w.
Global Arguments Exn {S} s w.
Global Arguments Undefined {S}.

(** Steps that cannot throw are partial functions: [None] is [Undefined]. *)
Definition lift {S} (o : option S) (w : World) : Res S :=
  match o with
  | Some s => Ok s w
  | None => Undefined
  end.

(** ** Special member functions of T on slots *)

(** One invocation of [T(const T&)]. *)
Inductive Ctor : Type :=
| Constructed (w : World)
| Thrown (w : World).

Definition copy_ctor (w : World) : Ctor :=
  match budget w with
  | None => Constructed w
  | Some 0 => Thrown (mkWorld None (leaked w))
  | Some (S k) => Constructed (mkWorld (Some k) (leaked w))
  end.

(** [new (buf + i) T(...)] with the constructed value [x]. *)
Definition construct_at (buf : Block T) (i : nat) (x : T) : option (Block T) :=
  match buf !! i with
  | Some None => Some (<[i := Some x]> buf)
  | _ => None
  end.

(** [Destroy(buf + i)] : [buf->~T()]. *)
Definition Destroy (buf : Block T) (i : nat) : option (Block T) :=
  match buf !! i with
  | Some (Some _) => Some (<[i := None]> buf)
  | _ => None
  end.

(** [for (i = 0; i < n; i++) Destroy(buf + i)], [buf] at offset [first]. *)
Fixpoint DestroyN (buf : Block T) (first n : nat) : option (Block T) :=
  match n with
  | 0 => Some buf
  | S n' => buf' ← Destroy buf first; DestroyN buf' (S first) n'
  end.

(** Reading the object in slot [i]. *)
Definition load (buf : Block T) (i : nat) : option T :=
  match buf !! i with
  | Some (Some x) => Some x
  | _ => None
  end.

(** [buf[i] = x] : assignment to the live object in slot [i]. *)
Definition assign (buf : Block T) (i : nat) (x : T) : option (Block T) :=
  match buf !! i with
  | Some (Some _) => Some (<[i := Some x]> buf)
  | _ => None
  end.

(** ** Algorithms of <memory> and <algorithm> *)

(** [std::uninitialized_copy_n(src + first, n, dst + d_first)].  When a copy
    throws, the objects this call constructed are destroyed again. *)
Fixpoint uninitialized_copy_n (src : Block T) (first n : nat)
    (dst : Block T) (d_first : nat) (w : World) : Res (Block T) :=
  match n with
  | 0 => Ok dst w
  | S n' =>
    match load src first with
    | None => Undefined
    | Some x =>
      match copy_ctor w with
      | Thrown w' => Exn dst w'
      | Constructed w' =>
        match construct_at dst d_first x with
        | None => Undefined
        | Some dst' =>
          match uninitialized_copy_n src (S first) n' dst' (S d_first) w' with
          | Ok d w'' => Ok d w''
          | Exn d w'' => match Destroy d d_first with
                         | Some d' => Exn d' w''
                         | None => Undefined
                         end
          | Undefined => Undefined
          end
        end
      end
    end
  end.

(** [std::uninitialized_move_n(src + first, n, dst + d_first)]: returns the
    source block (its objects moved from) and the destination block. *)
Fixpoint uninitialized_move_n (src : Block T) (first n : nat)
    (dst : Block T) (d_first : nat) : option (Block T * Block T) :=
  match n with
  | 0 => Some (src, dst)
  | S n' =>
    x ← load src first;
    dst' ← construct_at dst d_first x;
    uninitialized_move_n (<[first := Some (moved_from x)]> src) (S first) n'
                         dst' (S d_first)
  end.

(** [std::uninitialized_value_construct_n(buf + first, n)]: each object is
    value-initialised, [::new (p) T()]. *)
Fixpoint uninitialized_value_construct_n (buf : Block T) (first n : nat)
    : option (Block T) :=
  match n with
  | 0 => Some buf
  | S n' => buf' ← construct_at buf first value_init;
            uninitialized_value_construct_n buf' (S first) n'
  end.

(** [std::uninitialized_default_construct_n(buf + first, n)]: each object
    is default-initialised, [::new (p) T]. *)
Fixpoint uninitialized_default_construct_n (buf : Block T) (first n : nat)
    : option (Block T) :=
  match n with
  | 0 => Some buf
  | S n' => buf' ← construct_at buf first default_init;
            uninitialized_default_construct_n buf' (S first) n'
  end.

(** [std::copy_n(src + first, n, dst + d_first)]: copy assignment, between
    two different blocks. *)
Fixpoint copy_n (src : Block T) (first n : nat)
    (dst : Block T) (d_first : nat)
    : option (Block T) :=
  match n with
  | 0 => Some dst
  | S n' => x ← load src first;
            dst' ← assign dst d_first x;
            copy_n src (S first) n' dst' (S d_first)
  end.

(** Move assignment from slot [s] to slot [d] of one block. *)
Definition move_assign_slot (buf : Block T) (s d : nat) : option (Block T) :=
  x ← load buf s;
  buf' ← assign buf d x;
  Some (<[s := Some (moved_from x)]> buf').

(** [std::move(buf + first, buf + first + n, buf + d_first)]:
    front to back. *)
Fixpoint std_move (buf : Block T) (first n d_first : nat) : option (Block T) :=
  match n with
  | 0 => Some buf
  | S n' => buf' ← move_assign_slot buf first d_first;
            std_move buf' (S first) n' (S d_first)
  end.

(** [std::move_backward(buf + first, buf + first + n, buf + d_last)]:
    back to front, the last source slot first. *)
Fixpoint move_backward (buf : Block T) (first n d_last : nat)
    : option (Block T) :=
  match n with
  | 0 => Some buf
  | S n' =>
    match d_last with
    | 0 => None
    | S d' => buf' ← move_assign_slot buf (first + n') d';
              move_backward buf' first n' d'
    end
  end.

(** ** RawMemory<T> *)

(** The null pointer owns no slot.  [Allocate] returns it exactly for a
    request of zero elements, so it is the only block without slots. *)
Definition nullptr : Block T := [].

Record RawMemory : Type := mkRawMemory {
  buffer_ : Block T;
  capacity_ : nat
}.

Definition Allocate (n : nat) : Block T :=
  if decide (n ≠ 0) then replicate n None else nullptr.

(** [RawMemory() = default] *)
Definition RawMemory_default : RawMemory := mkRawMemory nullptr 0.

(** [explicit RawMemory(size_t capacity)] *)
Definition RawMemory_new (capacity : nat) : RawMemory :=
  mkRawMemory (Allocate capacity) capacity.

(** [RawMemory(RawMemory&& other)]: the constructed object and [other]
    after the call. *)
Definition RawMemory_move (other : RawMemory) : RawMemory * RawMemory :=
  (mkRawMemory (buffer_ other) (capacity_ other), mkRawMemory nullptr 0).

(** [operator=(RawMemory&& other)]:
    [std::swap(buffer_, other.buffer_); capacity_ = other.capacity_;]
    gives [this] and [other] after the call. *)
Definition RawMemory_move_assign (this other : RawMemory)
    : RawMemory * RawMemory :=
  (mkRawMemory (buffer_ other) (capacity_ other),
   mkRawMemory (buffer_ this) (capacity_ other)).

(** [~RawMemory]: the storage is released, no destructor of [T] runs.
    Objects still alive in the block are lost. *)
Definition RawMemory_destroy (m : RawMemory) (w : World) : World :=
  mkWorld (budget w) (leaked w ++ omap id (buffer_ m)).

(** [operator+(size_t offset)], with its assertion. *)
Definition RawMemory_plus (m : RawMemory) (offset : nat) : option nat :=
  if decide (offset ≤ capacity_ m) then Some offset else None.

(** [operator[](size_t index)], with its assertion: the slot addressed. *)
Definition RawMemory_index (m : RawMemory) (index : nat) : option nat :=
  if decide (index < capacity_ m) then Some index else None.

(** [Swap(RawMemory& other)] on two different objects. *)
Definition RawMemory_Swap (this other : RawMemory) : RawMemory * RawMemory :=
  (mkRawMemory (buffer_ other) (capacity_ other),
   mkRawMemory (buffer_ this) (capacity_ this)).

Definition GetAddress (m : RawMemory) : Block T := buffer_ m.

Definition RawMemory_Capacity (m : RawMemory) : nat := capacity_ m.

(** The object [m] after the slots reached through its pointer changed. *)
Definition with_buffer (m : RawMemory) (buf : Block T) : RawMemory :=
  mkRawMemory buf (capacity_ m).

(** ** Vector<T> *)

Record Vector : Type := mkVector {
  data_ : RawMemory;
  size_ : nat
}.

Definition Size (v : Vector) : nat := size_ v.
Definition Capacity (v : Vector) : nat := RawMemory_Capacity (data_ v).

Definition set_buffer (v : Vector) (buf : Block T) : Vector :=
  mkVector (with_buffer (data_ v) buf) (size_ v).

(** [const T&] and [T&&] constructor arguments. *)
Inductive Arg : Type :=
| ByCopy (x : T)
| ByMove (x : T).

Definition arg_value (a : Arg) : T :=
  match a with ByCopy x | ByMove x => x end.

(** [new (buf + i) T(std::forward<Types>(args)...)] *)
Definition construct_from (buf : Block T) (i : nat) (a : Arg) (w : World)
    : Res (Block T) :=
  match a with
  | ByMove x => lift (construct_at buf i x) w
  | ByCopy x =>
    match copy_ctor w with
    | Thrown w' => Exn buf w'
    | Constructed w' => lift (construct_at buf i x) w'
    end
  end.

(** [MoveOrCopyUninitialized(data + first, n, new_data + d_first)]: the
    source and the destination block afterwards. *)
Definition MoveOrCopyUninitialized (data : Block T) (first n : nat)
    (new_data : Block T) (d_first : nat) (w : World)
    : Res (Block T * Block T) :=
  if relocate_by_move then
    lift (uninitialized_move_n data first n new_data d_first) w
  else
    match uninitialized_copy_n data first n new_data d_first w with
    | Ok d w' => Ok (data, d) w'
    | Exn d w' => Exn (data, d) w'
    | Undefined => Undefined
    end.

(** [Vector()] *)
Definition Vector_default : Vector := mkVector RawMemory_default 0.

(** [explicit Vector(size_t size)] *)
Definition Vector_sized (size : nat) : option Vector :=
  let data := RawMemory_new size in
  buf ← uninitialized_value_construct_n (GetAddress data) 0 size;
  Some (mkVector (with_buffer data buf) size).

(** [Vector(const Vector& other)].  When a copy throws no object results
    and the member [data_] is released. *)
Definition Vector_copy (other : Vector) (w : World) : Res (option Vector) :=
  let data := RawMemory_new (size_ other) in
  match uninitialized_copy_n (GetAddress (data_ other)) 0 (size_ other)
                             (GetAddress data) 0 w with
  | Ok buf w' => Ok (Some (mkVector (with_buffer data buf) (size_ other))) w'
  | Exn buf w' => Exn None (RawMemory_destroy (with_buffer data buf) w')
  | Undefined => Undefined
  end.

(** [Vector(Vector&& other)]: the constructed object and [other] after. *)
Definition Vector_move (other : Vector) : Vector * Vector :=
  let '(data, other_data) := RawMemory_move (data_ other) in
  (mkVector data (size_ other), mkVector other_data 0).

(** [~Vector()] followed by the destruction of the member [data_]. *)
Definition Vector_destroy (v : Vector) (w : World) : option World :=
  buf ← DestroyN (GetAddress (data_ v)) 0 (size_ v);
  Some (RawMemory_destroy (with_buffer (data_ v) buf) w).

(** [Swap(Vector& other)] on two different objects. *)
Definition Swap (this other : Vector) : Vector * Vector :=
  let '(d, od) := RawMemory_Swap (data_ this) (data_ other) in
  (mkVector d (size_ other), mkVector od (size_ this)).

(** [Reserve(size_t new_capacity)] *)
Definition Reserve (new_capacity : nat) (v : Vector) (w : World)
    : Res Vector :=
  if decide (new_capacity ≤ Capacity v) then Ok v w
  else
    let new_data := RawMemory_new new_capacity in
    match MoveOrCopyUninitialized (GetAddress (data_ v)) 0 (size_ v)
                                  (GetAddress new_data) 0 w with
    | Undefined => Undefined
    | Exn (old, new) w1 =>
      Exn (set_buffer v old) (RawMemory_destroy (with_buffer new_data new) w1)
    | Ok (old, new) w1 =>
      match DestroyN old 0 (size_ v) with
      | None => Undefined
      | Some old' =>
        let '(data, new_data') :=
          RawMemory_Swap (with_buffer (data_ v) old')
                         (with_buffer new_data new) in
        Ok (mkVector data (size_ v)) (RawMemory_destroy new_data' w1)
      end
    end.

(** [let? x := e in k]: a step that cannot throw; outside its contract the
    whole call is [Undefined]. *)
Notation "'let?' x := e 'in' k" :=
  (match e with Some x => k | None => Undefined end)
  (at level 10, x pattern, e at level 100, k at level 200, only parsing).

(** The capacity requested when a full vector grows by itself. *)
Definition grown_capacity (size : nat) : nat :=
  if decide (size = 0) then 1 else size * 2.

(** [EmplaceBack(Types&&... args)] (the reference it returns is left out) *)
Definition EmplaceBack (a : Arg) (v : Vector) (w : World) : Res Vector :=
  if decide (size_ v = Capacity v) then
    let new_data := RawMemory_new (grown_capacity (size_ v)) in
    let? t := RawMemory_plus new_data (size_ v) in
    match construct_from (GetAddress new_data) t a w with
    | Undefined => Undefined
    | Exn buf w1 => Exn v (RawMemory_destroy (with_buffer new_data buf) w1)
    | Ok buf w1 =>
      match MoveOrCopyUninitialized (GetAddress (data_ v)) 0 (size_ v)
                                    buf 0 w1 with
      | Undefined => Undefined
      | Exn (old, new) w2 =>
        Exn (set_buffer v old)
            (RawMemory_destroy (with_buffer new_data new) w2)
      | Ok (old, new) w2 =>
        let? old' := DestroyN old 0 (size_ v) in
        let '(data, new_data') :=
          RawMemory_Swap (with_buffer (data_ v) old')
                         (with_buffer new_data new) in
        Ok (mkVector data (size_ v + 1)) (RawMemory_destroy new_data' w2)
      end
    end
  else
    let? t := RawMemory_plus (data_ v) (size_ v) in
    match construct_from (GetAddress (data_ v)) t a w with
    | Undefined => Undefined
    | Exn buf w1 => Exn (set_buffer v buf) w1
    | Ok buf w1 => Ok (mkVector (with_buffer (data_ v) buf) (size_ v + 1)) w1
    end.

(** [PushBack(const T& value)] and [PushBack(T&& value)] *)
Definition PushBack (a : Arg) (v : Vector) (w : World) : Res Vector :=
  EmplaceBack a v w.

(** [PopBack()] *)
Definition PopBack (v : Vector) : option Vector :=
  if decide (Size v ≠ 0) then
    last ← RawMemory_plus (data_ v) (size_ v - 1);
    buf ← Destroy (GetAddress (data_ v)) last;
    Some (mkVector (with_buffer (data_ v) buf) (size_ v - 1))
  else Some v.

(** [Resize(size_t new_size)] *)
Definition Resize (new_size : nat) (v : Vector) (w : World) : Res Vector :=
  if decide (size_ v < new_size) then
    match (if decide (Capacity v < new_size)
           then Reserve new_size v w else Ok v w) with
    | Undefined => Undefined
    | Exn v1 w1 => Exn v1 w1
    | Ok v1 w1 =>
      let? first := RawMemory_plus (data_ v1) (size_ v1) in
      let? buf := uninitialized_default_construct_n
                    (GetAddress (data_ v1)) first (new_size - size_ v1) in
      Ok (mkVector (with_buffer (data_ v1) buf) new_size) w1
    end
  else
    let? buf := DestroyN (GetAddress (data_ v)) new_size
                         (size_ v - new_size) in
    Ok (mkVector (with_buffer (data_ v) buf) new_size) w.

(** [InsertionWithRelocation(int pos_index, Types&&... args)]; [Emplace]
    hands it an lvalue, the new element is copy-constructed from [x]. *)
Definition InsertionWithRelocation (pos_index : nat) (x : T) (v : Vector)
    (w : World) : Res Vector :=
  let new_data := RawMemory_new (grown_capacity (size_ v)) in
  let? t := RawMemory_plus new_data pos_index in
  match construct_from (GetAddress new_data) t (ByCopy x) w with
  | Undefined => Undefined
  | Exn buf w1 => Exn v (RawMemory_destroy (with_buffer new_data buf) w1)
  | Ok buf w1 =>
    match MoveOrCopyUninitialized (GetAddress (data_ v)) 0 pos_index
                                  buf 0 w1 with
    | Undefined => Undefined
    | Exn (old, new) w2 =>
      (* catch (...) { Destroy(data_ + pos_index); throw; } *)
      let? d := RawMemory_plus (data_ v) pos_index in
      let? old' := Destroy old d in
      Exn (set_buffer v old')
          (RawMemory_destroy (with_buffer new_data new) w2)
    | Ok (old, new) w2 =>
      let? s := RawMemory_plus (data_ v) pos_index in
      let? d := RawMemory_plus new_data pos_index in
      match MoveOrCopyUninitialized old s (size_ v - pos_index)
                                    new (d + 1) w2 with
      | Undefined => Undefined
      | Exn (old2, new2) w3 =>
        (* catch (...) { DestroyN(new_data.GetAddress(), pos_index); throw; } *)
        let? new3 := DestroyN new2 0 pos_index in
        Exn (set_buffer v old2)
            (RawMemory_destroy (with_buffer new_data new3) w3)
      | Ok (old2, new2) w3 =>
        let? old3 := DestroyN old2 0 (size_ v) in
        let '(data, new_data') :=
          RawMemory_Swap (with_buffer (data_ v) old3)
                         (with_buffer new_data new2) in
        Ok (mkVector data (size_ v)) (RawMemory_destroy new_data' w3)
      end
    end
  end.

(** [InsertionWithoutRelocation(int pos_index, Types&&... args)]: the last
    element is move-constructed into the free slot behind it, the elements
    from [pos_index] on are moved one slot up, and a temporary copy of [x]
    is move-assigned to slot [pos_index]. *)
Definition InsertionWithoutRelocation (pos_index : nat) (x : T) (v : Vector)
    (w : World) : Res Vector :=
  let? e := RawMemory_plus (data_ v) (size_ v) in
  match e with
  | 0 => Undefined
  | S last =>
    let buf := GetAddress (data_ v) in
    let? y := load buf last in
    let? buf1 := construct_at (<[last := Some (moved_from y)]> buf) e y in
    if decide (pos_index ≤ last) then
      let? buf2 := move_backward buf1 pos_index (last - pos_index) e in
      let? i := RawMemory_index (data_ v) pos_index in
      match copy_ctor w with
      | Thrown w1 => Exn (set_buffer v buf2) w1
      | Constructed w1 =>
        let? buf3 := assign buf2 i x in
        Ok (set_buffer v buf3) w1
      end
    else Undefined
  end.

(** [Emplace(const_iterator pos, Types&&... args)], the position given by
    its offset [pos - cbegin()] (the iterator it returns is left out). *)
Definition Emplace (pos_index : nat) (a : Arg) (v : Vector) (w : World)
    : Res Vector :=
  let? e := RawMemory_plus (data_ v) (size_ v) in
  if decide (pos_index = e) then EmplaceBack a v w
  else
    match (if decide (size_ v = Capacity v)
           then InsertionWithRelocation pos_index (arg_value a) v w
           else InsertionWithoutRelocation pos_index (arg_value a) v w) with
    | Undefined => Undefined
    | Exn v1 w1 => Exn v1 w1
    | Ok v1 w1 => Ok (mkVector (data_ v1) (size_ v1 + 1)) w1
    end.

(** [Insert(const_iterator pos, const T& value)] and
    [Insert(const_iterator pos, T&& value)] *)
Definition Insert (pos_index : nat) (a : Arg) (v : Vector) (w : World)
    : Res Vector :=
  Emplace pos_index a v w.

(** [Erase(const_iterator pos)] (the iterator it returns is left out) *)
Definition Erase (pos_index : nat) (v : Vector) : option Vector :=
  e ← RawMemory_plus (data_ v) (size_ v);
  if decide (pos_index + 1 ≤ e) then
    buf ← std_move (GetAddress (data_ v)) (pos_index + 1)
                   (e - (pos_index + 1)) pos_index;
    PopBack (set_buffer v buf)
  else None.

(** [operator[](size_t index)], with its assertion: the element read. *)
Definition at_index (v : Vector) (index : nat) : option T :=
  if decide (index < size_ v) then
    i ← RawMemory_index (data_ v) index;
    load (GetAddress (data_ v)) i
  else None.

(** The body of [operator=(const Vector& other)] for [this != &other],
    up to and including the final [size_ = other.size_]. *)
Definition copy_assign_from (other : Vector) (v : Vector) (w : World)
    : Res Vector :=
  if decide (RawMemory_Capacity (data_ v) < size_ other) then
    match Vector_copy other w with
    | Undefined => Undefined
    | Exn _ w1 => Exn v w1
    | Ok None _ => Undefined
    | Ok (Some other_copy) w1 =>
      let '(v1, other_copy1) := Swap v other_copy in
      let? w2 := Vector_destroy other_copy1 w1 in
      Ok (mkVector (data_ v1) (size_ other)) w2
    end
  else
    let min_size := size_ other `min` size_ v in
    let? buf := copy_n (GetAddress (data_ other)) 0 min_size
                       (GetAddress (data_ v)) 0 in
    if decide (size_ other < size_ v) then
      let? buf1 := DestroyN buf min_size (size_ v - min_size) in
      Ok (mkVector (with_buffer (data_ v) buf1) (size_ other)) w
    else
      match uninitialized_copy_n (GetAddress (data_ other)) min_size
              (size_ other - size_ v) buf min_size w with
      | Undefined => Undefined
      | Exn buf1 w1 => Exn (set_buffer v buf1) w1
      | Ok buf1 w1 =>
        Ok (mkVector (with_buffer (data_ v) buf1) (size_ other)) w1
      end.

(** ** Vector objects named by reference

    [operator=] and [Swap] take a second vector by reference, which may be
    the object itself.  A store maps references to the objects they name. *)

Abbreviation Store := (gmap nat Vector).

(** [std::swap(a.m, b.m)] for a member [m] of the objects [this] and
    [other]: [tmp = a.m; a.m = b.m; b.m = tmp]. *)
Definition swap_member {A} (get : Vector → A) (set : A → Vector → Vector)
    (this other : nat) (st : Store) : option Store :=
  a ← st !! this;
  let tmp := get a in
  b ← st !! other;
  let st1 := <[this := set (get b) a]> st in
  b1 ← st1 !! other;
  Some (<[other := set tmp b1]> st1).

Definition set_buffer_ (buf : Block T) (v : Vector) : Vector :=
  mkVector (mkRawMemory buf (capacity_ (data_ v))) (size_ v).
Definition set_capacity_ (c : nat) (v : Vector) : Vector :=
  mkVector (mkRawMemory (buffer_ (data_ v)) c) (size_ v).
Definition set_size_ (n : nat) (v : Vector) : Vector :=
  mkVector (data_ v) n.

(** [this->Swap(other)]:
    [data_.Swap(other.data_); std::swap(size_, other.size_);] *)
Definition Swap_ref (this other : nat) (st : Store) : option Store :=
  st1 ← swap_member (λ v, buffer_ (data_ v)) set_buffer_ this other st;
  st2 ← swap_member (λ v, capacity_ (data_ v)) set_capacity_ this other st1;
  swap_member size_ set_size_ this other st2.

(** A member function called on the object [this]. *)
Definition method (this : nat) (f : Vector → World → Res Vector)
    (st : Store) (w : World) : Res Store :=
  let? v := st !! this in
  match f v w with
  | Ok v' w' => Ok (<[this := v']> st) w'
  | Exn v' w' => Exn (<[this := v']> st) w'
  | Undefined => Undefined
  end.

(** [*this = other] for [const Vector& other] *)
Definition copy_assign (this other : nat) (st : Store) (w : World)
    : Res Store :=
  let? o := st !! other in
  if decide (this ≠ other) then
    method this (copy_assign_from o) st w
  else
    (* size_ = other.size_ *)
    method this (λ v w, Ok (set_size_ (size_ o) v) w) st w.

(** [*this = std::move(other)] : [Swap(other)] *)
Definition move_assign (this other : nat) (st : Store) (w : World)
    : Res Store :=
  lift (Swap_ref this other st) w.

(** The public operations that construct, change or destroy a vector, the
    vectors involved named by reference. *)
Inductive Op : Type :=
| Construct (this : nat)
| ConstructSized (this : nat) (size : nat)
| ConstructCopy (this other : nat)
| ConstructMove (this other : nat)
| CopyAssign (this other : nat)
| MoveAssign (this other : nat)
| DoResize (this : nat) (new_size : nat)
| DoPushBack (this : nat) (a : Arg)
| DoEmplaceBack (this : nat) (a : Arg)
| DoPopBack (this : nat)
| DoEmplace (this : nat) (pos_index : nat) (a : Arg)
| DoInsert (this : nat) (pos_index : nat) (a : Arg)
| DoErase (this : nat) (pos_index : nat)
| DoReserve (this : nat) (new_capacity : nat)
| DoSwap (this other : nat)
| Destruct (this : nat).

(** A constructor runs on storage that holds no vector yet. *)
Definition construct (this : nat) (r : Res (option Vector)) (st : Store)
    : Res Store :=
  match st !! this with
  | Some _ => Undefined
  | None =>
    match r with
    | Ok (Some v) w => Ok (<[this := v]> st) w
    | Ok None _ => Undefined
    | Exn _ w => Exn st w
    | Undefined => Undefined
    end
  end.

Definition exec (op : Op) (st : Store) (w : World) : Res Store :=
  match op with
  | Construct this => construct this (Ok (Some Vector_default) w) st
  | ConstructSized this size =>
    construct this (lift (Some <$> Vector_sized size) w) st
  | ConstructCopy this other =>
    let? o := st !! other in construct this (Vector_copy o w) st
  | ConstructMove this other =>
    let? o := st !! other in
    let '(v, o') := Vector_move o in
    construct this (Ok (Some v) w) (<[other := o']> st)
  | CopyAssign this other => copy_assign this other st w
  | MoveAssign this other => move_assign this other st w
  | DoResize this new_size => method this (Resize new_size) st w
  | DoPushBack this a => method this (PushBack a) st w
  | DoEmplaceBack this a => method this (EmplaceBack a) st w
  | DoPopBack this => method this (λ v, lift (PopBack v)) st w
  | DoEmplace this pos_index a => method this (Emplace pos_index a) st w
  | DoInsert this pos_index a => method this (Insert pos_index a) st w
  | DoErase this pos_index => method this (λ v, lift (Erase pos_index v)) st w
  | DoReserve this new_capacity => method this (Reserve new_capacity) st w
  | DoSwap this other => lift (Swap_ref this other st) w
  | Destruct this =>
    let? v := st !! this in
    let? w' := Vector_destroy v w in
    Ok (delete this st) w'
  end.

(** ** The representation invariant *)

(** [size_ <= capacity], the slots below [size_] hold live objects, the
    slots from [size_] up to the capacity are raw, and the block has
    exactly [capacity_] slots. *)
Definition Vector_inv (v : Vector) : Prop :=
  size_ v ≤ Capacity v ∧
  length (buffer_ (data_ v)) = Capacity v ∧
  (∀ i, i < size_ v → is_Some (load (buffer_ (data_ v)) i)) ∧
  (∀ i, size_ v ≤ i < Capacity v → buffer_ (data_ v) !! i = Some None).

Definition Store_inv (st : Store) : Prop :=
  ∀ r v, st !! r = Some v → Vector_inv v.

(** The element sequence of a vector: the objects in slots [0, size_). *)
Definition elements (v : Vector) : list T :=
  omap id (take (size_ v) (buffer_ (data_ v))).

(** The vector with elements [xs] in a block of [c] slots. *)
Definition vec (xs : list T) (c : nat) : Vector :=
  mkVector (mkRawMemory ((Some <$> xs) ++ replicate (c - length xs) None) c)
           (length xs).

End Model.

Arguments World : clear implicits.
Arguments RawMemory : clear implicits.
Arguments Vector : clear implicits.
Arguments Arg : clear implicits.
Arguments Op : clear implicits.
Arguments Ctor : clear implicits.
Arguments Res : clear implicits.

(** ** Vocabulary of the specifications *)

Section Vocabulary.
Context {T : Type} `{!Element T}.
Implicit Types (w : World T).

(** [n] consecutive invocations of the copy constructor. *)
Definition charge (n : nat) w : Ctor T :=
  match budget w with
  | None => Constructed w
  | Some k => if decide (n ≤ k)
              then Constructed (mkWorld (Some (k - n)) (leaked w))
              else Thrown (mkWorld None (leaked w))
  end.

(** The object left in the last slot of a range moved one slot down. *)
Definition vacated_back (a : T) (ys : list T) : T :=
  match last ys with Some y => moved_from y | None => a end.

(** The object left in the first slot of a range moved one slot up. *)
Definition vacated_front (b : T) (ys : list T) : T :=
  match ys with y :: _ => moved_from y | [] => b end.

(** What a call that returns may have done to the world: nothing leaked,
    and nothing at all when the copy constructor cannot throw. *)
Definition calm w w' : Prop :=
  leaked w' = leaked w ∧ (budget w = None → w' = w).

(** What must hold of the world for a call to throw. *)
Definition armed w w' : Prop :=
  is_Some (budget w) ∧ budget w' = None.

(** The elements left in the old block by a relocation. *)
Definition relocated (xs : list T) : list T :=
  if relocate_by_move then moved_from <$> xs else xs.

(** The copy constructor invocations of a relocation of [n] elements. *)
Definition relocation (n : nat) w : Ctor T :=
  if relocate_by_move then Constructed w else charge n w.

(** The copy constructor invocations of the construction from [a]. *)
Definition construction (a : Arg T) w : Ctor T :=
  match a with
  | ByMove _ => Constructed w
  | ByCopy _ => copy_ctor w
  end.

(** The world after a block is released in which [x] is still alive. *)
Definition leak (x : T) w : World T :=
  mkWorld (budget w) (leaked w ++ [x]).

(** [outcome w P Q r]: the call that started in world [w] either returned
    a state satisfying [P], or threw leaving a state satisfying [Q]; it did
    not leave its contract. *)
Inductive outcome {S} w (P : S → Prop) (Q : S → World T → Prop)
    : Res T S → Prop :=
| outcome_Ok s w' : P s → calm w w' → outcome w P Q (Ok s w')
| outcome_Exn s w' : Q s w' → armed w w' → outcome w P Q (Exn s w').

(** What a method call guarantees for the vector it is called on; [strong]
    tells whether the invariant survives an exception. *)
Definition keeps (strong : bool) (v : Vector T) (r : Res T (Vector T))
    : Prop :=
  match r with
  | Ok v' _ => Vector_inv v' ∧ Capacity v ≤ Capacity v'
  | Exn v' _ =>
      (if strong then Vector_inv v' else size_ v' ≤ Capacity v')
      ∧ Capacity v ≤ Capacity v'
  | Undefined => True
  end.

(** Operations that insert before a position. *)
Definition inserts (op : Op T) : bool :=
  match op with
  | DoEmplace _ _ _ | DoInsert _ _ _ => true
  | _ => false
  end.

(** Operations that hand a block from one vector to another. *)
Definition exchanges (op : Op T) : bool :=
  match op with
  | ConstructMove _ _ | MoveAssign _ _ | DoSwap _ _ => true
  | _ => false
  end.

(** The position handed to [Emplace] or [Insert] lies in [[0, size]]. *)
Definition valid_position (op : Op T) (st : gmap nat (Vector T)) : Prop :=
  match op with
  | DoEmplace this k _ | DoInsert this k _ =>
      ∀ v, st !! this = Some v → k ≤ size_ v
  | _ => True
  end.

(** No vector present before and after has a smaller capacity after. *)
Definition capacities_kept (st st' : gmap nat (Vector T)) : Prop :=
  ∀ r v v',
    st !! r = Some v → st' !! r = Some v' → Capacity v ≤ Capacity v'.

(** [size_ <= capacity] in every vector of the store. *)
Definition sizes_bounded (st : gmap nat (Vector T)) : Prop :=
  ∀ r v, st !! r = Some v → size_ v ≤ Capacity v.

(** What a public operation guarantees for the store it ran on. *)
Definition exec_sound (op : Op T) (st : gmap nat (Vector T))
    (r : Res T (gmap nat (Vector T))) : Prop :=
  match r with
  | Ok st' _ =>
      Store_inv st' ∧ (exchanges op = false → capacities_kept st st')
  | Exn st' _ =>
      (inserts op = false → Store_inv st')
      ∧ sizes_bounded st' ∧ capacities_kept st st'
  | Undefined => True
  end.

(** Appending the arguments [args] one after the other. *)
Fixpoint PushBack_all (args : list (Arg T)) (v : Vector T) w
    : Res T (Vector T) :=
  match args with
  | [] => Ok v w
  | a :: args' =>
    match PushBack a v w with
    | Ok v' w' => PushBack_all args' v' w'
    | r => r
    end
  end.

(** What the caller of a public operation owes: the vectors it names
    exist, a constructor runs where no vector is yet, and a position lies
    within the elements. *)
Definition callable (op : Op T) (st : gmap nat (Vector T)) : Prop :=
  match op with
  | Construct this | ConstructSized this _ => st !! this = None
  | ConstructCopy this other | ConstructMove this other =>
      st !! this = None ∧ is_Some (st !! other)
  | CopyAssign this other | MoveAssign this other | DoSwap this other =>
      is_Some (st !! this) ∧ is_Some (st !! other)
  | DoResize this _ | DoPushBack this _ | DoEmplaceBack this _
  | DoPopBack this | DoReserve this _ | Destruct this =>
      is_Some (st !! this)
  | DoEmplace this k _ | DoInsert this k _ =>
      ∃ v, st !! this = Some v ∧ k ≤ size_ v
  | DoErase this k => ∃ v, st !! this = Some v ∧ k < size_ v
  end.

(** The vector an append or an insert adds an element to. *)
Definition adds_to (op : Op T) : option nat :=
  match op with
  | DoPushBack this _ | DoEmplaceBack this _
  | DoEmplace this _ _ | DoInsert this _ _ => Some this
  | _ => None
  end.






End Vocabulary.

(** ** Concrete runs *)

(** A world in which no copy constructor throws and nothing has leaked. *)
Definition quiet {T} : World T := mkWorld None [].

(** A world in which the copy constructor throws on invocation [k + 1]. *)
Definition throwing_after {T} (k : nat) : World T := mkWorld (Some k) [].

(** One call after another on the same vector; an exception ends the
    run. *)
Definition and_then {T} (r : Res T (Vector T))
    (f : Vector T → World T → Res T (Vector T)) : Res T (Vector T) :=
  match r with
  | Ok v w => f v w
  | Exn v w => Exn v w
  | Undefined => Undefined
  end.

(** [Vector<int>]: append 1, 2, 3, insert 99 at offset 1, erase offset 0,
    remove the last element. *)
Definition int_scenario : Res IntObj (Vector IntObj) :=
  and_then (and_then (and_then (and_then (and_then
    (PushBack (ByCopy (IntVal 1)) Vector_default quiet)
    (PushBack (ByCopy (IntVal 2))))
    (PushBack (ByCopy (IntVal 3))))
    (Insert 1 (ByCopy (IntVal 99))))
    (λ v, lift (Erase 0 v)))
    (λ v, lift (PopBack v)).

(** [Vector<Tracked>] holding two elements in a full block, as two appends
    to an empty vector leave it, and in a block with room for four, as
    [Reserve(4)] and two appends leave it. *)
Definition full_pair : Vector Tracked := vec [Obj 1; Obj 2] 2.
Definition roomy_pair : Vector Tracked := vec [Obj 1; Obj 2] 4.


(** [full_pair] after a failed relocation of the prefix: the element in
    slot 1 has been destroyed. *)
Definition torn_pair : Vector Tracked :=
  mkVector (mkRawMemory [Some (Obj 1); None] 2) 2.

(** [roomy_pair] after a failed insertion in place at offset 0. *)
Definition shifted_pair : Vector Tracked :=
  mkVector (mkRawMemory [Some (Obj 0); Some (Obj 1); Some (Obj 2); None] 4)
           2.

(** Two [Vector<int>] objects: one with three elements in a block of four
    slots, one empty. *)
Definition two_vectors : gmap nat (Vector IntObj) :=
  <[1 := vec [] 0]> {[0 := vec [IntVal 1; IntVal 2; IntVal 3] 4]}.

(** One [Vector<int>] object holding 1 and 2 in a full block. *)
Definition one_vector : gmap nat (Vector IntObj) :=
  {[0 := vec [IntVal 1; IntVal 2] 2]}.

(** ** Properties of the block primitives and of the operations *)

Section Blocks.
Context {T : Type} `{!Element T}.
Implicit Types (x y : T) (xs ys : list T) (pre post buf : Block T).
Implicit Types (w : World T) (m : RawMemory T) (v : Vector T).

(** Side conditions on the length of a frame. *)
Ltac solve_length :=
  subst;
  repeat (progress (simpl in *;
    rewrite ?length_app, ?length_fmap, ?length_replicate, ?length_insert,
            ?length_take, ?length_drop in *));
  lia.

Lemma lookup_frame {A} (l1 l2 : list A) (a : A) i :
  i = length l1 → (l1 ++ a :: l2) !! i = Some a.
Proof. intros ->. by apply list_lookup_middle. Qed.

Lemma insert_frame {A} (l1 l2 : list A) (a b : A) i :
  i = length l1 → <[i := b]> (l1 ++ a :: l2) = l1 ++ b :: l2.
Proof.
  intros ->. rewrite insert_app_r_alt by lia.
  by rewrite Nat.sub_diag.
Qed.

Lemma construct_at_frame pre post x i :
  i = length pre →
  construct_at (pre ++ None :: post) i x = Some (pre ++ Some x :: post).
Proof.
  intros Hi. unfold construct_at.
  by rewrite lookup_frame, insert_frame.
Qed.

Lemma Destroy_frame pre post x i :
  i = length pre →
  Destroy (pre ++ Some x :: post) i = Some (pre ++ None :: post).
Proof.
  intros Hi. unfold Destroy.
  by rewrite lookup_frame, insert_frame.
Qed.

Lemma load_frame pre post x i :
  i = length pre → load (pre ++ Some x :: post) i = Some x.
Proof. intros Hi. unfold load. by rewrite lookup_frame. Qed.

Lemma assign_frame pre post x y i :
  i = length pre →
  assign (pre ++ Some y :: post) i x = Some (pre ++ Some x :: post).
Proof.
  intros Hi. unfold assign.
  by rewrite lookup_frame, insert_frame.
Qed.

(** Moving the frame one slot to the right. *)
Lemma frame_snoc {A} (l1 l2 : list A) (a : A) :
  l1 ++ a :: l2 = (l1 ++ [a]) ++ l2.
Proof. by rewrite <- app_assoc. Qed.

Lemma DestroyN_frame xs : ∀ pre post i,
  i = length pre →
  DestroyN (pre ++ (Some <$> xs) ++ post) i (length xs)
  = Some (pre ++ replicate (length xs) None ++ post).
Proof.
  induction xs as [|x xs IH]; intros pre post i Hi; [done|].
  cbn [length fmap list_fmap app DestroyN replicate].
  rewrite Destroy_frame by done. cbn [mbind option_bind].
  rewrite frame_snoc, IH by solve_length.
  by rewrite <- frame_snoc.
Qed.

Lemma uninitialized_value_construct_n_frame n : ∀ pre post i,
  i = length pre →
  uninitialized_value_construct_n (pre ++ replicate n None ++ post) i n
  = Some (pre ++ replicate n (Some value_init) ++ post).
Proof.
  induction n as [|n IH]; intros pre post i Hi; [done|].
  cbn [app uninitialized_value_construct_n replicate].
  rewrite construct_at_frame by done. cbn [mbind option_bind].
  rewrite frame_snoc, IH by solve_length.
  by rewrite <- frame_snoc.
Qed.

Lemma uninitialized_default_construct_n_frame n : ∀ pre post i,
  i = length pre →
  uninitialized_default_construct_n (pre ++ replicate n None ++ post) i n
  = Some (pre ++ replicate n (Some default_init) ++ post).
Proof.
  induction n as [|n IH]; intros pre post i Hi; [done|].
  cbn [app uninitialized_default_construct_n replicate].
  rewrite construct_at_frame by done. cbn [mbind option_bind].
  rewrite frame_snoc, IH by solve_length.
  by rewrite <- frame_snoc.
Qed.

Lemma uninitialized_move_n_frame xs : ∀ spre spost dpre dpost i j,
  i = length spre → j = length dpre →
  uninitialized_move_n (spre ++ (Some <$> xs) ++ spost) i (length xs)
                       (dpre ++ replicate (length xs) None ++ dpost) j
  = Some (spre ++ (Some <$> (moved_from <$> xs)) ++ spost,
          dpre ++ (Some <$> xs) ++ dpost).
Proof.
  induction xs as [|x xs IH]; intros spre spost dpre dpost i j Hi Hj; [done|].
  cbn [length fmap list_fmap app uninitialized_move_n replicate].
  rewrite load_frame by done. cbn [mbind option_bind].
  rewrite construct_at_frame by done. cbn [mbind option_bind].
  rewrite insert_frame by done.
  rewrite (frame_snoc spre), (frame_snoc dpre).
  rewrite IH by solve_length.
  by rewrite <- !frame_snoc.
Qed.

Lemma copy_n_frame xs : ∀ ys spre spost dpre dpost i j,
  length ys = length xs →
  i = length spre → j = length dpre →
  copy_n (spre ++ (Some <$> xs) ++ spost) i (length xs)
         (dpre ++ (Some <$> ys) ++ dpost) j
  = Some (dpre ++ (Some <$> xs) ++ dpost).
Proof.
  induction xs as [|x xs IH]; intros [|y ys] spre spost dpre dpost i j Hl Hi Hj;
    try done.
  cbn [length fmap list_fmap app copy_n].
  rewrite load_frame by done. cbn [mbind option_bind].
  rewrite assign_frame by done. cbn [mbind option_bind].
  rewrite (frame_snoc spre), (frame_snoc dpre).
  rewrite IH by (simpl in *; solve_length).
  by rewrite <- !frame_snoc.
Qed.

Lemma charge_0 w : charge 0 w = Constructed w.
Proof.
  destruct w as [[k|] lk]; unfold charge; simpl; [|done].
  by rewrite Nat.sub_0_r.
Qed.

Lemma charge_S n w :
  charge (S n) w = match copy_ctor w with
                   | Constructed w' => charge n w'
                   | Thrown w' => Thrown w'
                   end.
Proof.
  destruct w as [[[|k]|] lk]; unfold charge, copy_ctor; simpl; try done.
  repeat case_decide; try lia; done.
Qed.

Lemma copy_ctor_charge w : copy_ctor w = charge 1 w.
Proof. rewrite charge_S. destruct (copy_ctor w); by rewrite ?charge_0. Qed.

Lemma uninitialized_copy_n_frame xs : ∀ spre spost dpre dpost i j w,
  i = length spre → j = length dpre →
  uninitialized_copy_n (spre ++ (Some <$> xs) ++ spost) i (length xs)
                       (dpre ++ replicate (length xs) None ++ dpost) j w
  = match charge (length xs) w with
    | Constructed w' => Ok (dpre ++ (Some <$> xs) ++ dpost) w'
    | Thrown w' => Exn (dpre ++ replicate (length xs) None ++ dpost) w'
    end.
Proof.
  induction xs as [|x xs IH]; intros spre spost dpre dpost i j w Hi Hj.
  { simpl. by rewrite charge_0. }
  cbn [length fmap list_fmap app uninitialized_copy_n replicate].
  rewrite load_frame, charge_S by done.
  destruct (copy_ctor w) as [w1|w1]; [|done].
  rewrite construct_at_frame by done.
  rewrite (frame_snoc spre), (frame_snoc dpre).
  rewrite IH by solve_length.
  destruct (charge (length xs) w1) as [w2|w2].
  - by rewrite <- !frame_snoc.
  - rewrite <- !frame_snoc. by rewrite Destroy_frame.
Qed.

Lemma std_move_frame ys : ∀ a pre post i j,
  j = length pre → i = S j →
  std_move (pre ++ Some a :: (Some <$> ys) ++ post) i (length ys) j
  = Some (pre ++ (Some <$> ys) ++ Some (vacated_back a ys) :: post).
Proof.
  induction ys as [|y ys IH]; intros a pre post i j Hj Hi; [done|].
  cbn [length fmap list_fmap app std_move]. unfold move_assign_slot.
  rewrite (frame_snoc pre (_ :: _)), load_frame by solve_length.
  rewrite <- frame_snoc. cbn [mbind option_bind].
  rewrite assign_frame by done. cbn [mbind option_bind].
  rewrite (frame_snoc pre (_ :: _)), insert_frame by solve_length.
  rewrite IH by solve_length.
  rewrite <- frame_snoc. do 4 f_equal.
  unfold vacated_back. destruct ys as [|y' ys]; [done|].
  rewrite last_cons_cons.
  destruct (last (y' :: ys)) eqn:E; [done|]. by apply last_None in E.
Qed.

Lemma move_backward_frame ys : ∀ b pre post i j,
  i = length pre → j = S (i + length ys) →
  move_backward (pre ++ (Some <$> ys) ++ Some b :: post) i (length ys) j
  = Some (pre ++ Some (vacated_front b ys) :: (Some <$> ys) ++ post).
Proof.
  induction ys as [|y ys IH] using rev_ind; intros b pre post i j Hi Hj.
  { subst. by rewrite Nat.add_0_r. }
  subst j. rewrite fmap_app, length_app, Nat.add_1_r.
  cbn [move_backward fmap list_fmap]. unfold move_assign_slot.
  rewrite <- !app_assoc. cbn [app].
  rewrite (app_assoc pre (Some <$> ys)).
  rewrite load_frame by solve_length.
  cbn [mbind option_bind].
  rewrite (frame_snoc (pre ++ _)), assign_frame
    by solve_length.
  cbn [mbind option_bind].
  rewrite <- frame_snoc, insert_frame by solve_length.
  rewrite <- (app_assoc pre (Some <$> ys)).
  rewrite (IH (moved_from y)) by solve_length.
  do 3 f_equal.
  unfold vacated_front. by destruct ys.
Qed.

(** *** Worlds *)

Lemma calm_refl w : calm w w.
Proof. by split. Qed.

Lemma calm_trans w1 w2 w3 : calm w1 w2 → calm w2 w3 → calm w1 w3.
Proof.
  intros [L1 B1] [L2 B2]. split; [congruence|].
  intros Hb. rewrite <- (B1 Hb). apply B2. by rewrite (B1 Hb).
Qed.

Lemma calm_armed w1 w2 w3 : calm w1 w2 → armed w2 w3 → armed w1 w3.
Proof.
  intros [L1 B1] [[k Hk] H3]. split; [|done].
  destruct (budget w1) eqn:E; [done|].
  rewrite (B1 eq_refl) in Hk. congruence.
Qed.

Lemma charge_Constructed n w w' : charge n w = Constructed w' → calm w w'.
Proof.
  unfold charge. destruct w as [[k|] lk]; simpl.
  - case_decide; [|done]. intros [= <-]. by split.
  - intros [= <-]. by split.
Qed.

Lemma charge_Thrown n w w' :
  charge n w = Thrown w' → armed w w' ∧ leaked w' = leaked w.
Proof.
  unfold charge, armed. destruct w as [[k|] lk]; simpl; [|done].
  case_decide; [done|]. intros [= <-]. eauto.
Qed.

Lemma charge_None n w : budget w = None → charge n w = Constructed w.
Proof. unfold charge. by intros ->. Qed.

Lemma omap_Some xs : omap id (Some <$> xs) = xs.
Proof. induction xs; simpl; by f_equal. Qed.

Lemma omap_raw n : omap id (replicate n (@None T)) = [].
Proof. by induction n. Qed.

Lemma Allocate_raw n : Allocate n = replicate n (@None T).
Proof. unfold Allocate. case_decide; [done|]. by replace n with 0 by lia. Qed.

Lemma RawMemory_destroy_raw n c w :
  RawMemory_destroy (mkRawMemory (replicate n None) c) w = w.
Proof.
  destruct w. unfold RawMemory_destroy. simpl.
  by rewrite omap_raw, app_nil_r.
Qed.

(** *** Relocation *)

Lemma length_relocated xs : length (relocated xs) = length xs.
Proof.
  unfold relocated. destruct relocate_by_move; by rewrite ?length_fmap.
Qed.

Lemma relocation_Constructed n w w' :
  relocation n w = Constructed w' → calm w w'.
Proof.
  unfold relocation. destruct relocate_by_move.
  - intros [= <-]. apply calm_refl.
  - apply charge_Constructed.
Qed.

Lemma relocation_Thrown n w w' :
  relocation n w = Thrown w' →
  armed w w' ∧ leaked w' = leaked w ∧ relocate_by_move = false.
Proof.
  unfold relocation. destruct relocate_by_move; [done|].
  intros [??]%charge_Thrown. eauto.
Qed.

Lemma MoveOrCopyUninitialized_frame xs spre spost dpre dpost i j n w :
  i = length spre → j = length dpre → n = length xs →
  MoveOrCopyUninitialized (spre ++ (Some <$> xs) ++ spost) i n
                          (dpre ++ replicate n None ++ dpost) j w
  = match relocation n w with
    | Constructed w' =>
        Ok (spre ++ (Some <$> relocated xs) ++ spost,
            dpre ++ (Some <$> xs) ++ dpost) w'
    | Thrown w' =>
        Exn (spre ++ (Some <$> xs) ++ spost,
             dpre ++ replicate n None ++ dpost) w'
    end.
Proof.
  intros Hi Hj ->. unfold MoveOrCopyUninitialized, relocation, relocated.
  destruct relocate_by_move.
  - by rewrite uninitialized_move_n_frame.
  - rewrite uninitialized_copy_n_frame by done.
    by destruct (charge (length xs) w).
Qed.

Lemma MoveOrCopyUninitialized_front xs spost dpost n w :
  n = length xs →
  MoveOrCopyUninitialized ((Some <$> xs) ++ spost) 0 n
                          (replicate n None ++ dpost) 0 w
  = match relocation n w with
    | Constructed w' =>
        Ok ((Some <$> relocated xs) ++ spost, (Some <$> xs) ++ dpost) w'
    | Thrown w' =>
        Exn ((Some <$> xs) ++ spost, replicate n None ++ dpost) w'
    end.
Proof.
  intros Hn.
  exact (MoveOrCopyUninitialized_frame xs [] spost [] dpost 0 0 n w
           eq_refl eq_refl Hn).
Qed.

(** *** Outcomes of calls *)

Lemma outcome_weaken {S} w (P P' : S → Prop)
    (Q Q' : S → World T → Prop) r :
  outcome w P Q r →
  (∀ s, P s → P' s) → (∀ s w', Q s w' → Q' s w') →
  outcome w P' Q' r.
Proof. intros [] ??; constructor; auto. Qed.

Lemma outcome_world {S} w0 w (P : S → Prop) (Q : S → World T → Prop) r :
  calm w0 w → outcome w P Q r → outcome w0 P Q r.
Proof.
  intros Hc []; constructor; eauto using calm_trans, calm_armed.
Qed.

Lemma outcome_total {S} w (P : S → Prop) (Q : S → World T → Prop) r :
  budget w = None → outcome w P Q r → ∃ s, r = Ok s w ∧ P s.
Proof.
  intros Hb [s w' HP [_ Hw]|s w' _ [[k Hk] _]].
  - rewrite (Hw Hb). eauto.
  - congruence.
Qed.

(** *** Blocks of vectors *)

Lemma raw_cons n k : k < n →
  replicate (n - k) (@None T) = None :: replicate (n - S k) None.
Proof. intros. by replace (n - k) with (S (n - S k)) by lia. Qed.

Lemma raw_split n k : k ≤ n →
  replicate n (@None T) = replicate k None ++ replicate (n - k) None.
Proof. intros. rewrite <- replicate_add. f_equal. lia. Qed.

Lemma vec_snoc xs x c : length xs < c →
  vec (xs ++ [x]) c
  = mkVector (mkRawMemory ((Some <$> xs) ++ Some x
                           :: replicate (c - S (length xs)) None) c)
             (S (length xs)).
Proof.
  intros. unfold vec. rewrite fmap_app, <- app_assoc, length_app, Nat.add_1_r.
  done.
Qed.

Lemma vec_inv xs c : length xs ≤ c → Vector_inv (vec xs c).
Proof.
  intros Hl. unfold Vector_inv, Capacity, RawMemory_Capacity, vec, load; simpl.
  split_and!; [done|solve_length|..].
  - intros i Hi. rewrite lookup_app_l by solve_length.
    rewrite list_lookup_fmap.
    destruct (lookup_lt_is_Some_2 xs i Hi) as [x ->]. simpl. eauto.
  - intros i Hi. rewrite lookup_app_r by solve_length.
    apply lookup_replicate_2. rewrite length_fmap. lia.
Qed.

Lemma live_block (l : Block T) :
  (∀ k, k < length l → is_Some (load l k)) → l = Some <$> omap id l.
Proof.
  induction l as [|[a|] l IH]; intros Hl; [done|..].
  - simpl. f_equal. apply IH. intros k Hk. apply (Hl (S k)). simpl. lia.
  - destruct (Hl 0) as [? Hx]; [simpl; lia|done].
Qed.

Lemma raw_block (l : Block T) :
  (∀ k, k < length l → l !! k = Some None) →
  l = replicate (length l) None.
Proof.
  induction l as [|a l IH]; intros Hl; [done|].
  simpl. f_equal.
  - specialize (Hl 0). simpl in Hl. by injection Hl; [|lia].
  - apply IH. intros k Hk. apply (Hl (S k)). simpl. lia.
Qed.

Lemma inv_vec v : Vector_inv v → ∃ xs c, length xs ≤ c ∧ v = vec xs c.
Proof.
  destruct v as [[buf c] n].
  unfold Vector_inv, Capacity, RawMemory_Capacity; simpl.
  intros (Hn & Hlen & Hlive & Hraw).
  exists (omap id (take n buf)), c.
  assert (Htake : take n buf = Some <$> omap id (take n buf)).
  { apply live_block. intros k Hk. rewrite length_take in Hk.
    unfold load. rewrite lookup_take_lt by lia. apply Hlive. lia. }
  assert (Hlen' : length (omap id (take n buf)) = n).
  { rewrite <- (length_fmap Some), <- Htake, length_take. lia. }
  split; [lia|]. unfold vec. rewrite Hlen', <- Htake. do 2 f_equal.
  rewrite <- (take_drop n buf) at 1. f_equal.
  rewrite (raw_block (drop n buf)).
  - rewrite length_drop. f_equal. lia.
  - intros k Hk. rewrite length_drop in Hk.
    rewrite lookup_drop. apply Hraw. lia.
Qed.

Lemma elements_vec xs c : elements (vec xs c) = xs.
Proof.
  unfold elements, vec; simpl.
  rewrite take_app_length' by solve_length. apply omap_Some.
Qed.

Lemma Capacity_vec xs c : Capacity (vec xs c) = c.
Proof. done. Qed.

Lemma size_vec xs c : size_ (vec xs c) = length xs.
Proof. done. Qed.

(** *** The operations on well-formed vectors *)

Ltac unfold_vec :=
  cbn [vec data_ size_ buffer_ capacity_ GetAddress with_buffer set_buffer
       Capacity RawMemory_Capacity Size RawMemory_new RawMemory_Swap] in *.

Lemma RawMemory_plus_le m k :
  k ≤ capacity_ m → RawMemory_plus m k = Some k.
Proof. intros. unfold RawMemory_plus. by case_decide. Qed.

Lemma RawMemory_index_lt m k :
  k < capacity_ m → RawMemory_index m k = Some k.
Proof. intros. unfold RawMemory_index. by case_decide. Qed.

Lemma PopBack_snoc xs x c :
  length xs < c → PopBack (vec (xs ++ [x]) c) = Some (vec xs c).
Proof.
  intros Hl. rewrite vec_snoc by done. unfold PopBack. unfold_vec.
  case_decide; [|lia]. rewrite RawMemory_plus_le by (simpl; lia).
  cbn [mbind option_bind]. rewrite Destroy_frame by solve_length.
  cbn [mbind option_bind]. unfold vec. rewrite (raw_cons c (length xs)) by done.
  do 3 f_equal. lia.
Qed.

Lemma Erase_vec xs x ys c :
  length xs + S (length ys) ≤ c →
  Erase (length xs) (vec (xs ++ x :: ys) c) = Some (vec (xs ++ ys) c).
Proof.
  intros Hl. unfold Erase. unfold_vec.
  rewrite RawMemory_plus_le by (simpl; solve_length).
  cbn [mbind option_bind]. case_decide; [|solve_length].
  rewrite fmap_app, <- app_assoc. cbn [fmap list_fmap app].
  replace (length (xs ++ x :: ys) - (length xs + 1)) with (length ys)
    by solve_length.
  rewrite (std_move_frame ys x (Some <$> xs)) by solve_length.
  cbn [mbind option_bind].
  rewrite <- (PopBack_snoc (xs ++ ys) (vacated_back x ys) c) by solve_length.
  rewrite vec_snoc by solve_length.
  unfold set_buffer; unfold_vec.
  replace (length (xs ++ x :: ys)) with (S (length (xs ++ ys)))
    by solve_length.
  by rewrite (fmap_app _ xs ys), <- app_assoc.
Qed.

Lemma Vector_sized_vec n :
  Vector_sized n = Some (vec (replicate n value_init) n).
Proof.
  unfold Vector_sized, RawMemory_new, GetAddress, with_buffer.
  cbn [buffer_ capacity_]. rewrite Allocate_raw.
  pose proof (uninitialized_value_construct_n_frame n [] [] 0 eq_refl) as H.
  rewrite !app_nil_r in H. cbn [app] in H. rewrite H. cbn [mbind option_bind].
  unfold vec. rewrite length_replicate, Nat.sub_diag, fmap_replicate.
  by rewrite app_nil_r.
Qed.

Lemma DestroyN_vec xs post n :
  n = length xs →
  DestroyN ((Some <$> xs) ++ post) 0 n = Some (replicate n None ++ post).
Proof. intros ->. by apply (DestroyN_frame xs [] post 0). Qed.

Lemma Vector_destroy_vec xs c w :
  length xs ≤ c → Vector_destroy (vec xs c) w = Some w.
Proof.
  intros Hl. unfold Vector_destroy, with_buffer, GetAddress.
  cbn [vec data_ size_ buffer_ capacity_].
  rewrite DestroyN_vec by done. cbn [mbind option_bind].
  rewrite <- replicate_add. by rewrite RawMemory_destroy_raw.
Qed.

Lemma relocate_vec xs c post w :
  length xs ≤ c →
  MoveOrCopyUninitialized ((Some <$> xs) ++ replicate (c - length xs) None)
    0 (length xs) (replicate (length xs) None ++ post) 0 w
  = match relocation (length xs) w with
    | Constructed w' =>
        Ok ((Some <$> relocated xs) ++ replicate (c - length xs) None,
            (Some <$> xs) ++ post) w'
    | Thrown w' =>
        Exn ((Some <$> xs) ++ replicate (c - length xs) None,
             replicate (length xs) None ++ post) w'
    end.
Proof.
  intros Hl.
  by apply MoveOrCopyUninitialized_front.
Qed.

Lemma RawMemory_destroy_released xs k c w :
  RawMemory_destroy
    (mkRawMemory (replicate (length xs) None ++ replicate k None) c) w = w.
Proof. by rewrite <- replicate_add, RawMemory_destroy_raw. Qed.

Lemma Reserve_vec n xs c w :
  length xs ≤ c →
  Reserve n (vec xs c) w
  = if decide (n ≤ c) then Ok (vec xs c) w
    else match relocation (length xs) w with
         | Constructed w' => Ok (vec xs n) w'
         | Thrown w' => Exn (vec xs c) w'
         end.
Proof.
  intros Hl. unfold Reserve. unfold_vec. case_decide; [done|].
  rewrite Allocate_raw, (raw_split n (length xs)) by lia.
  rewrite relocate_vec by done.
  destruct (relocation (length xs) w) as [w'|w'].
  - rewrite DestroyN_vec by (by rewrite length_relocated).
    unfold with_buffer; unfold_vec.
    by rewrite RawMemory_destroy_released.
  - unfold set_buffer, with_buffer; unfold_vec.
    by rewrite RawMemory_destroy_released.
Qed.

Lemma construct_from_frame pre post a i w :
  i = length pre →
  construct_from (pre ++ None :: post) i a w
  = match construction a w with
    | Constructed w' => Ok (pre ++ Some (arg_value a) :: post) w'
    | Thrown w' => Exn (pre ++ None :: post) w'
    end.
Proof.
  intros Hi. unfold construct_from, construction.
  destruct a as [x|x]; simpl.
  - destruct (copy_ctor w); [|done]. by rewrite construct_at_frame.
  - by rewrite construct_at_frame.
Qed.

Lemma RawMemory_destroy_leak n x k c w :
  RawMemory_destroy
    (mkRawMemory (replicate n None ++ Some x :: replicate k None) c) w
  = leak x w.
Proof.
  unfold RawMemory_destroy, leak. cbn [buffer_].
  by rewrite omap_app, omap_raw; cbn; rewrite omap_raw.
Qed.

Lemma grown_capacity_gt n : n < grown_capacity n.
Proof. unfold grown_capacity. case_decide; lia. Qed.

Lemma EmplaceBack_vec a xs c w :
  length xs ≤ c →
  EmplaceBack a (vec xs c) w
  = match construction a w with
    | Thrown w1 => Exn (vec xs c) w1
    | Constructed w1 =>
      if decide (length xs = c) then
        match relocation (length xs) w1 with
        | Constructed w2 =>
            Ok (vec (xs ++ [arg_value a]) (grown_capacity (length xs))) w2
        | Thrown w2 => Exn (vec xs c) (leak (arg_value a) w2)
        end
      else Ok (vec (xs ++ [arg_value a]) c) w1
    end.
Proof.
  intros Hl. unfold EmplaceBack. unfold_vec.
  pose proof (grown_capacity_gt (length xs)) as Hg.
  case_decide as Hfull.
  - rewrite RawMemory_plus_le by (simpl; lia). rewrite Allocate_raw.
    rewrite (raw_split (grown_capacity (length xs)) (length xs)) by lia.
    rewrite (raw_cons _ (length xs)) by lia.
    rewrite construct_from_frame by solve_length.
    destruct (construction a w) as [w1|w1].
    + rewrite relocate_vec by done.
      destruct (relocation (length xs) w1) as [w2|w2].
      * rewrite DestroyN_vec by (by rewrite length_relocated).
        unfold with_buffer; unfold_vec.
        rewrite RawMemory_destroy_released, vec_snoc by lia.
        do 3 f_equal. lia.
      * unfold set_buffer, with_buffer; unfold_vec.
        by rewrite RawMemory_destroy_leak.
    + unfold with_buffer; unfold_vec.
      rewrite <- (raw_cons _ (length xs)), RawMemory_destroy_released by lia.
      done.
  - rewrite RawMemory_plus_le by (simpl; lia).
    rewrite (raw_cons c (length xs)) by lia.
    rewrite construct_from_frame by solve_length.
    destruct (construction a w) as [w1|w1].
    + rewrite vec_snoc by lia. unfold with_buffer; unfold_vec.
      do 3 f_equal. lia.
    + unfold set_buffer, with_buffer; unfold_vec.
      by rewrite <- (raw_cons c (length xs)) by lia.
Qed.

Lemma default_construct_vec xs c n :
  length xs ≤ n → n ≤ c →
  uninitialized_default_construct_n
    ((Some <$> xs) ++ replicate (c - length xs) None)
    (length xs) (n - length xs)
  = Some ((Some <$> xs ++ replicate (n - length xs) default_init)
          ++ replicate (c - n) None).
Proof.
  intros Hn Hc.
  rewrite (raw_split (c - length xs) (n - length xs)) by lia.
  rewrite uninitialized_default_construct_n_frame by solve_length.
  rewrite fmap_app, fmap_replicate, <- app_assoc.
  do 4 f_equal. lia.
Qed.

Lemma Resize_vec n xs c w :
  length xs ≤ c →
  Resize n (vec xs c) w
  = if decide (length xs < n) then
      if decide (c < n) then
        match relocation (length xs) w with
        | Constructed w' =>
            Ok (vec (xs ++ replicate (n - length xs) default_init) n) w'
        | Thrown w' => Exn (vec xs c) w'
        end
      else Ok (vec (xs ++ replicate (n - length xs) default_init) c) w
    else Ok (vec (take n xs) c) w.
Proof.
  intros Hl. unfold Resize.
  cbn [vec size_ Capacity RawMemory_Capacity data_ capacity_].
  fold (vec xs c). case_decide as Hgrow.
  - assert (Hgrown : ∀ c', length xs ≤ c' → n ≤ c' →
      vec (xs ++ replicate (n - length xs) default_init) c'
      = mkVector (mkRawMemory
          ((Some <$> xs ++ replicate (n - length xs) default_init)
           ++ replicate (c' - n) None) c') n).
    { intros c' ??. unfold vec. rewrite length_app, length_replicate.
      by replace (length xs + (n - length xs)) with n by lia. }
    case_decide as Hcap.
    + rewrite Reserve_vec by done. case_decide; [lia|].
      destruct (relocation (length xs) w) as [w'|w']; [|done].
      unfold_vec. rewrite RawMemory_plus_le by (simpl; lia).
      rewrite default_construct_vec by lia.
      by rewrite Hgrown by lia.
    + unfold_vec. rewrite RawMemory_plus_le by (simpl; lia).
      rewrite default_construct_vec by lia.
      by rewrite Hgrown by lia.
  - unfold_vec. rewrite <- (take_drop n xs) at 1 2.
    rewrite fmap_app, <- app_assoc.
    replace (length xs - n) with (length (drop n xs)) by solve_length.
    rewrite DestroyN_frame by solve_length.
    unfold vec, with_buffer; unfold_vec.
    rewrite take_drop, length_take, length_drop, <- replicate_add.
    rewrite Nat.min_l by lia.
    by replace (length xs - n + (c - length xs)) with (c - n) by lia.
Qed.

Lemma copy_vec xs c post w :
  uninitialized_copy_n ((Some <$> xs) ++ replicate (c - length xs) None)
    0 (length xs) (replicate (length xs) None ++ post) 0 w
  = match charge (length xs) w with
    | Constructed w' => Ok ((Some <$> xs) ++ post) w'
    | Thrown w' => Exn (replicate (length xs) None ++ post) w'
    end.
Proof.
  exact (uninitialized_copy_n_frame xs [] _ [] post 0 0 w eq_refl eq_refl).
Qed.

Lemma Vector_copy_vec xs c w :
  Vector_copy (vec xs c) w
  = match charge (length xs) w with
    | Constructed w' => Ok (Some (vec xs (length xs))) w'
    | Thrown w' => Exn None w'
    end.
Proof.
  unfold Vector_copy. unfold_vec. rewrite Allocate_raw.
  rewrite <- (app_nil_r (replicate (length xs) None)), copy_vec.
  destruct (charge (length xs) w) as [w'|w'].
  - unfold vec, with_buffer; unfold_vec. by rewrite Nat.sub_diag.
  - unfold with_buffer; unfold_vec.
    by rewrite app_nil_r, RawMemory_destroy_raw.
Qed.

Lemma split_live (zs : list T) k (post : Block T) :
  (Some <$> zs) ++ post
  = (Some <$> take k zs) ++ (Some <$> drop k zs) ++ post.
Proof. by rewrite app_assoc, <- fmap_app, take_drop. Qed.

Lemma copy_assign_from_vec ys d xs c w :
  length xs ≤ c →
  copy_assign_from (vec ys d) (vec xs c) w
  = if decide (c < length ys) then
      match charge (length ys) w with
      | Constructed w' => Ok (vec ys (length ys)) w'
      | Thrown w' => Exn (vec xs c) w'
      end
    else if decide (length ys < length xs) then Ok (vec ys c) w
    else
      match charge (length ys - length xs) w with
      | Constructed w' => Ok (vec ys c) w'
      | Thrown w' => Exn (vec (take (length xs) ys) c) w'
      end.
Proof.
  intros Hl. unfold copy_assign_from.
  cbn [vec size_ RawMemory_Capacity data_ capacity_].
  fold (vec xs c) (vec ys d).
  case_decide as Hcap.
  - rewrite Vector_copy_vec.
    destruct (charge (length ys) w) as [w'|w']; [|done].
    unfold Swap. unfold_vec. fold (vec xs c).
    by rewrite Vector_destroy_vec.
  - unfold_vec. case_decide as Hlt.
    + rewrite Nat.min_l by lia.
      rewrite (split_live xs (length ys)).
      pose proof (copy_n_frame ys (take (length ys) xs) []
        (replicate (d - length ys) None) []
        ((Some <$> drop (length ys) xs) ++ replicate (c - length xs) None) 0 0)
        as H.
      cbn [app] in H. rewrite H by solve_length. clear H.
      replace (length xs - length ys) with (length (drop (length ys) xs))
        by solve_length.
      rewrite DestroyN_frame by solve_length.
      unfold vec, with_buffer; unfold_vec.
      rewrite length_drop, <- replicate_add. do 5 f_equal. lia.
    + rewrite Nat.min_r by lia.
      rewrite (split_live ys (length xs)).
      pose proof (copy_n_frame (take (length xs) ys) xs []
        ((Some <$> drop (length xs) ys) ++ replicate (d - length ys) None) []
        (replicate (c - length xs) None) 0 0) as H.
      cbn [app] in H. rewrite length_take, Nat.min_l in H by lia.
      rewrite H by solve_length. clear H.
      rewrite (raw_split (c - length xs) (length ys - length xs)) by lia.
      replace (length ys - length xs) with (length (drop (length xs) ys))
        by solve_length.
      rewrite uninitialized_copy_n_frame by solve_length.
      destruct (charge _ w) as [w'|w'].
      * unfold vec, with_buffer; unfold_vec.
        rewrite <- split_live. do 5 f_equal. solve_length.
      * unfold vec, set_buffer, with_buffer; unfold_vec.
        rewrite length_take, length_drop, Nat.min_l by lia.
        rewrite <- replicate_add.
        do 5 f_equal. lia.
Qed.

Lemma InsertionWithRelocation_vec xs1 y ys x c w :
  let n := length xs1 + S (length ys) in
  n ≤ c →
  InsertionWithRelocation (length xs1) x (vec (xs1 ++ y :: ys) c) w
  = match copy_ctor w with
    | Thrown w1 => Exn (vec (xs1 ++ y :: ys) c) w1
    | Constructed w1 =>
      match relocation (length xs1) w1 with
      | Thrown w2 =>
          Exn (mkVector (mkRawMemory
                 ((Some <$> xs1) ++ None :: (Some <$> ys)
                  ++ replicate (c - n) None) c) n)
              (leak x w2)
      | Constructed w2 =>
        match relocation (S (length ys)) w2 with
        | Thrown w3 => Exn (vec (xs1 ++ y :: ys) c) (leak x w3)
        | Constructed w3 =>
            Ok (set_size_ n (vec (xs1 ++ x :: y :: ys) (grown_capacity n))) w3
        end
      end
    end.
Proof.
  intros n Hc. unfold InsertionWithRelocation.
  assert (Hn : length (xs1 ++ y :: ys) = n) by solve_length.
  pose proof (grown_capacity_gt n) as Hg.
  assert (Hv : vec (xs1 ++ y :: ys) c
    = mkVector (mkRawMemory ((Some <$> xs1) ++ (Some <$> y :: ys)
                             ++ replicate (c - n) None) c) n).
  { unfold vec. by rewrite Hn, fmap_app, <- app_assoc. }
  rewrite !Hv. unfold_vec. set (g := grown_capacity n) in *.
  rewrite RawMemory_plus_le by (simpl; lia). rewrite Allocate_raw.
  rewrite (raw_split g (length xs1)), (raw_cons g (length xs1)) by lia.
  rewrite construct_from_frame by solve_length. cbn [construction arg_value].
  destruct (copy_ctor w) as [w1|w1].
  2:{ unfold with_buffer; unfold_vec.
      by rewrite <- (raw_cons g (length xs1)), RawMemory_destroy_released
        by lia. }
  rewrite MoveOrCopyUninitialized_front by done.
  destruct (relocation (length xs1) w1) as [w2|w2].
  2:{ rewrite !RawMemory_plus_le by (simpl; lia).
      cbn [fmap list_fmap app]. rewrite Destroy_frame by solve_length.
      unfold set_buffer, with_buffer; unfold_vec.
      by rewrite RawMemory_destroy_leak. }
  rewrite !RawMemory_plus_le by (simpl; lia).
  replace (n - length xs1) with (length (y :: ys)) by solve_length.
  rewrite (frame_snoc (Some <$> xs1) _ (Some x)).
  rewrite (raw_split (g - S (length xs1)) (length (y :: ys)))
    by solve_length.
  rewrite MoveOrCopyUninitialized_frame
    by (rewrite ?length_fmap, ?length_relocated; solve_length).
  destruct (relocation (length (y :: ys)) w2) as [w3|w3] eqn:Hr; simpl in Hr;
    rewrite Hr.
  - rewrite app_assoc, <- fmap_app.
    rewrite DestroyN_vec
      by (rewrite length_app, !length_relocated; solve_length).
    unfold with_buffer; unfold_vec.
    rewrite <- replicate_add, RawMemory_destroy_raw.
    unfold set_size_, vec; unfold_vec.
    rewrite <- frame_snoc, (fmap_app _ xs1), <- !app_assoc.
    cbn [fmap list_fmap app].
    by replace (g - S (length xs1) - length (y :: ys))
      with (g - length (xs1 ++ x :: y :: ys)) by solve_length.
  - apply relocation_Thrown in Hr as (_ & _ & Hcopy).
    unfold relocated. rewrite Hcopy.
    rewrite <- frame_snoc.
    rewrite DestroyN_vec by done.
    unfold set_buffer, with_buffer; unfold_vec.
    by rewrite <- replicate_add, RawMemory_destroy_leak.
Qed.

Lemma InsertionWithoutRelocation_vec xs1 ys z x c w :
  let n := length xs1 + S (length ys) in
  n < c →
  InsertionWithoutRelocation (length xs1) x (vec (xs1 ++ ys ++ [z]) c) w
  = match copy_ctor w with
    | Thrown w1 =>
        Exn (mkVector (mkRawMemory
               ((Some <$> xs1) ++ Some (vacated_front (moved_from z) ys)
                :: (Some <$> ys) ++ Some z :: replicate (c - S n) None) c) n)
            w1
    | Constructed w1 => Ok (set_size_ n (vec (xs1 ++ x :: ys ++ [z]) c)) w1
    end.
Proof.
  intros n Hc. unfold InsertionWithoutRelocation.
  assert (Hn : length (xs1 ++ ys ++ [z]) = n) by solve_length.
  assert (Hv : vec (xs1 ++ ys ++ [z]) c
    = mkVector (mkRawMemory (((Some <$> xs1) ++ (Some <$> ys)) ++ Some z
                             :: None :: replicate (c - S n) None) c) n).
  { unfold vec. rewrite Hn, !fmap_app, <- !app_assoc.
    by rewrite (raw_cons c n) by lia. }
  rewrite !Hv. unfold_vec.
  rewrite RawMemory_plus_le by (simpl; lia).
  replace n with (S (length xs1 + length ys)) at 1 by lia.
  rewrite load_frame by solve_length.
  rewrite insert_frame by solve_length.
  rewrite (frame_snoc _ _ (Some (moved_from z))).
  rewrite construct_at_frame by solve_length.
  case_decide; [|lia].
  rewrite <- frame_snoc, <- app_assoc.
  replace (length xs1 + length ys - length xs1) with (length ys) by lia.
  rewrite move_backward_frame by solve_length.
  rewrite RawMemory_index_lt by (simpl; lia).
  destruct (copy_ctor w) as [w1|w1].
  - rewrite assign_frame by solve_length.
    unfold set_buffer, set_size_, with_buffer, vec; unfold_vec.
    rewrite (fmap_app _ xs1). cbn [fmap list_fmap].
    rewrite fmap_app, <- !app_assoc. cbn [fmap list_fmap app].
    replace (c - length (xs1 ++ x :: ys ++ [z])) with (c - S n)
      by (unfold n in *; solve_length).
    by rewrite <- app_assoc.
  - by unfold set_buffer, with_buffer; unfold_vec.
Qed.

Lemma copy_ctor_Constructed w w' : copy_ctor w = Constructed w' → calm w w'.
Proof. rewrite copy_ctor_charge. apply charge_Constructed. Qed.

Lemma copy_ctor_Thrown w w' : copy_ctor w = Thrown w' → armed w w'.
Proof. rewrite copy_ctor_charge. by intros [??]%charge_Thrown. Qed.

Lemma construction_Constructed a w w' :
  construction a w = Constructed w' → calm w w'.
Proof.
  destruct a; simpl; [apply copy_ctor_Constructed|].
  intros [= <-]. apply calm_refl.
Qed.

Lemma construction_Thrown a w w' : construction a w = Thrown w' → armed w w'.
Proof. destruct a; simpl; [apply copy_ctor_Thrown|done]. Qed.

Lemma relocation_armed n w w' : relocation n w = Thrown w' → armed w w'.
Proof. by intros (? & _)%relocation_Thrown. Qed.

Lemma armed_leak x w w' : armed w w' → armed w (leak x w').
Proof. by intros [??]. Qed.

Lemma charge_armed n w w' : charge n w = Thrown w' → armed w w'.
Proof. by intros [??]%charge_Thrown. Qed.

(** Turns the recorded constructor invocations into facts about worlds
    and chains them. *)
Ltac solve_world :=
  repeat match goal with
  | H : copy_ctor _ = Constructed _ |- _ => apply copy_ctor_Constructed in H
  | H : copy_ctor _ = Thrown _ |- _ => apply copy_ctor_Thrown in H
  | H : construction _ _ = Constructed _ |- _ =>
      apply construction_Constructed in H
  | H : construction _ _ = Thrown _ |- _ => apply construction_Thrown in H
  | H : relocation _ _ = Constructed _ |- _ =>
      apply relocation_Constructed in H
  | H : relocation _ _ = Thrown _ |- _ => apply relocation_armed in H
  | H : charge _ _ = Constructed _ |- _ => apply charge_Constructed in H
  | H : charge _ _ = Thrown _ |- _ => apply charge_armed in H
  end;
  eauto 6 using calm_refl, calm_trans, calm_armed, armed_leak.

(** The effect of [EmplaceBack] on the vector holding [xs]. *)
Lemma EmplaceBack_outcome a xs c w :
  length xs ≤ c →
  outcome w
    (λ v', v' = vec (xs ++ [arg_value a])
                    (if decide (length xs = c)
                     then grown_capacity (length xs) else c))
    (λ v' _, v' = vec xs c)
    (EmplaceBack a (vec xs c) w).
Proof.
  intros Hl. rewrite EmplaceBack_vec by done.
  destruct (construction a w) as [w1|w1] eqn:H1;
    [|constructor; [done|solve_world]].
  case_decide; [|constructor; [done|solve_world]].
  destruct (relocation (length xs) w1) as [w2|w2] eqn:H2;
    (constructor; [done|solve_world]).
Qed.

(** The effect of [Emplace] at offset [length xs1] of the vector holding
    [xs1 ++ xs2]. *)
Lemma Emplace_outcome xs1 xs2 a c w :
  let n := length xs1 + length xs2 in
  n ≤ c →
  outcome w
    (λ v', v' = vec (xs1 ++ arg_value a :: xs2)
                    (if decide (n = c) then grown_capacity n else c))
    (λ v' _, Capacity v' = c ∧ size_ v' = n)
    (Emplace (length xs1) a (vec (xs1 ++ xs2) c) w).
Proof.
  intros n Hc. unfold Emplace.
  assert (Hn : length (xs1 ++ xs2) = n) by solve_length.
  cbn [vec data_ size_ Capacity RawMemory_Capacity capacity_].
  fold (vec (xs1 ++ xs2) c). rewrite Hn.
  rewrite RawMemory_plus_le by (simpl; lia).
  destruct (decide (length xs1 = n)) as [Hend|Hend].
  - assert (xs2 = []) as ->
      by (destruct xs2; [done|unfold n in *; solve_length]).
    rewrite app_nil_r. unfold n. cbn [length]. rewrite Nat.add_0_r.
    eapply outcome_weaken;
      [apply EmplaceBack_outcome; unfold n in *; solve_length|done|].
    by intros ?? ->.
  - destruct xs2 as [|y ys]; [unfold n in *; solve_length|].
    destruct (decide (n = c)) as [Hfull|Hfull].
    + rewrite InsertionWithRelocation_vec by (unfold n in *; solve_length).
      fold n.
      destruct (copy_ctor w) as [w1|w1] eqn:H1;
        [|constructor; [done|solve_world]].
      destruct (relocation (length xs1) w1) as [w2|w2] eqn:H2;
        [|constructor; [done|solve_world]].
      destruct (relocation (S (length ys)) w2) as [w3|w3] eqn:H3;
        [|constructor; [done|solve_world]].
      constructor; [|solve_world].
      unfold vec, set_size_; cbn [data_ size_]. f_equal. solve_length.
    + destruct (exists_last (l := y :: ys)) as (ys' & z & Heq); [done|].
      unfold n in *. clear n. rewrite Heq in *. clear Heq y ys.
      rewrite InsertionWithoutRelocation_vec by solve_length.
      destruct (copy_ctor w) as [w1|w1] eqn:H1.
      * constructor; [|solve_world].
        unfold vec, set_size_; cbn [data_ size_]. f_equal.
        solve_length.
      * constructor; [|solve_world].
        split; [done|]. solve_length.
Qed.

(** *** Summaries in terms of the invariant *)

Lemma grown_capacity_max n : grown_capacity n = 1 `max` (2 * n).
Proof. unfold grown_capacity. case_decide; lia. Qed.

Lemma at_index_vec xs c i : length xs ≤ c → at_index (vec xs c) i = xs !! i.
Proof.
  intros Hl. unfold at_index. unfold_vec. case_decide as Hi.
  - rewrite RawMemory_index_lt by (simpl; lia). cbn [mbind option_bind].
    unfold load. rewrite lookup_app_l by solve_length.
    rewrite list_lookup_fmap. by destruct (xs !! i).
  - symmetry. apply lookup_ge_None. lia.
Qed.

Lemma PopBack_vec xs c :
  length xs ≤ c →
  PopBack (vec xs c) = Some (vec (take (length xs - 1) xs) c).
Proof.
  intros Hl. destruct xs as [|x xs _] using rev_ind; [done|].
  rewrite length_app, Nat.add_sub in *. rewrite take_app_length.
  apply PopBack_snoc. simpl in *. lia.
Qed.

Lemma Erase_vec_at k xs c :
  k < length xs → length xs ≤ c →
  Erase k (vec xs c) = Some (vec (take k xs ++ drop (S k) xs) c).
Proof.
  intros Hk Hl. destruct (lookup_lt_is_Some_2 xs k Hk) as [x Hx].
  rewrite <- (take_drop_middle xs k x Hx) at 1.
  pose proof (Erase_vec (take k xs) x (drop (S k) xs) c) as H.
  rewrite length_take, Nat.min_l in H by lia. apply H.
  rewrite length_drop. lia.
Qed.

Lemma Erase_out_of_range k v : size_ v ≤ k → Erase k v = None.
Proof.
  intros Hk. unfold Erase, RawMemory_plus.
  case_decide; [|done]. cbn [mbind option_bind]. case_decide; [lia|done].
Qed.

Lemma Emplace_outcome_at k xs a c w :
  k ≤ length xs → length xs ≤ c →
  outcome w
    (λ v', v' = vec (take k xs ++ arg_value a :: drop k xs)
                    (if decide (length xs = c)
                     then grown_capacity (length xs) else c))
    (λ v' _, Capacity v' = c ∧ size_ v' = length xs)
    (Emplace k a (vec xs c) w).
Proof.
  intros Hk Hl.
  pose proof (Emplace_outcome (take k xs) (drop k xs) a c w) as H.
  rewrite take_drop, length_take, length_drop, Nat.min_l in H by lia.
  replace (k + (length xs - k)) with (length xs) in H by lia.
  by apply H.
Qed.

(** *** Vectors named by reference *)

Lemma swap_member_self {A} (get : Vector T → A)
    (set : A → Vector T → Vector T) (st : gmap nat (Vector T)) this v :
  (∀ u, set (get u) u = u) → st !! this = Some v →
  swap_member get set this this st = Some st.
Proof.
  intros Hset Hv. unfold swap_member.
  rewrite Hv. cbn [mbind option_bind]. rewrite lookup_insert_eq.
  cbn [mbind option_bind]. rewrite !Hset, insert_insert_eq.
  f_equal. by apply insert_id.
Qed.

Lemma Swap_ref_self (st : gmap nat (Vector T)) this v :
  st !! this = Some v → Swap_ref this this st = Some st.
Proof.
  intros Hv. unfold Swap_ref.
  rewrite (swap_member_self _ _ st this v); [|by intros [[??]?]|done].
  cbn [mbind option_bind].
  rewrite (swap_member_self _ _ st this v); [|by intros [[??]?]|done].
  cbn [mbind option_bind].
  by apply swap_member_self with v; [intros [??]|].
Qed.

Lemma swap_member_ne {A} (get : Vector T → A)
    (set : A → Vector T → Vector T)
    (st : gmap nat (Vector T)) this other a b :
  this ≠ other → st !! this = Some a → st !! other = Some b →
  swap_member get set this other st
  = Some (<[other := set (get a) b]> (<[this := set (get b) a]> st)).
Proof.
  intros Hne Ha Hb. unfold swap_member.
  rewrite Ha, Hb. cbn [mbind option_bind].
  by rewrite lookup_insert_ne, Hb by done.
Qed.

Lemma lookup_swapped (st : gmap nat (Vector T)) this other a b :
  this ≠ other →
  (<[other := b]> (<[this := a]> st)) !! this = Some a
  ∧ (<[other := b]> (<[this := a]> st)) !! other = Some b.
Proof.
  intros Hne. split; [|apply lookup_insert_eq].
  rewrite lookup_insert_ne by done. apply lookup_insert_eq.
Qed.

Lemma Swap_ref_ne (st : gmap nat (Vector T)) this other a b :
  this ≠ other → st !! this = Some a → st !! other = Some b →
  Swap_ref this other st = Some (<[other := a]> (<[this := b]> st)).
Proof.
  intros Hne Ha Hb. unfold Swap_ref.
  rewrite (swap_member_ne _ _ st this other a b) by done.
  cbn [mbind option_bind].
  edestruct lookup_swapped as [H1 H2]; [exact Hne|].
  rewrite (swap_member_ne _ _ _ this other _ _ Hne H1 H2).
  cbn [mbind option_bind]. clear H1 H2.
  edestruct lookup_swapped as [H1 H2]; [exact Hne|].
  rewrite (swap_member_ne _ _ _ this other _ _ Hne H1 H2).
  clear H1 H2. f_equal. apply map_eq. intros r.
  destruct (decide (r = other)) as [->|Ho].
  { rewrite !lookup_insert_eq. f_equal.
    by destruct a as [[??]?], b as [[??]?]. }
  rewrite !(lookup_insert_ne _ other r) by done.
  destruct (decide (r = this)) as [->|Ht].
  { rewrite !lookup_insert_eq. f_equal.
    by destruct a as [[??]?], b as [[??]?]. }
  by rewrite !lookup_insert_ne by done.
Qed.

(** *** Every method keeps the invariant and the capacity *)

Lemma outcome_keeps (strong : bool) v w (P : Vector T → Prop)
    (Q : Vector T → World T → Prop) r :
  outcome w P Q r →
  (∀ v', P v' → Vector_inv v' ∧ Capacity v ≤ Capacity v') →
  (∀ v' w', Q v' w' →
     (if strong then Vector_inv v' else size_ v' ≤ Capacity v')
     ∧ Capacity v ≤ Capacity v') →
  keeps strong v r.
Proof. intros H HP HQ. destruct H; simpl; eauto. Qed.

Lemma Reserve_keeps n v w : Vector_inv v → keeps true v (Reserve n v w).
Proof.
  intros (xs & c & Hl & ->)%inv_vec. rewrite Reserve_vec by done.
  case_decide; [by split; [apply vec_inv|]|].
  destruct (relocation (length xs) w); simpl;
    (split; [apply vec_inv|rewrite !Capacity_vec]; lia).
Qed.

Lemma Resize_keeps n v w : Vector_inv v → keeps true v (Resize n v w).
Proof.
  intros (xs & c & Hl & ->)%inv_vec. rewrite Resize_vec by done.
  repeat case_decide; try destruct (relocation (length xs) w); simpl;
    (split; [apply vec_inv|rewrite !Capacity_vec]; solve_length).
Qed.

Lemma EmplaceBack_keeps a v w :
  Vector_inv v → keeps true v (EmplaceBack a v w).
Proof.
  intros (xs & c & Hl & ->)%inv_vec.
  eapply outcome_keeps; [by apply EmplaceBack_outcome|..].
  - intros v' ->. pose proof (grown_capacity_gt (length xs)).
    split; [apply vec_inv|rewrite !Capacity_vec]; case_decide; solve_length.
  - intros v' _ ->. by split; [apply vec_inv|].
Qed.

Lemma Emplace_keeps k a v w :
  Vector_inv v → k ≤ size_ v → keeps false v (Emplace k a v w).
Proof.
  intros (xs & c & Hl & ->)%inv_vec Hk. rewrite size_vec in Hk.
  eapply outcome_keeps; [by apply Emplace_outcome_at|..].
  - intros v' ->. pose proof (grown_capacity_gt (length xs)).
    split; [apply vec_inv|rewrite !Capacity_vec]; case_decide; solve_length.
  - intros v' _ [-> ->]. rewrite Capacity_vec. split; lia.
Qed.

Lemma PopBack_keeps v w : Vector_inv v → keeps true v (lift (PopBack v) w).
Proof.
  intros (xs & c & Hl & ->)%inv_vec. rewrite PopBack_vec by done. simpl.
  split; [apply vec_inv|rewrite !Capacity_vec]; solve_length.
Qed.

Lemma Erase_keeps k v w : Vector_inv v → keeps true v (lift (Erase k v) w).
Proof.
  intros (xs & c & Hl & ->)%inv_vec.
  destruct (decide (k < length xs)) as [Hk|Hk].
  - rewrite Erase_vec_at by done. simpl.
    split; [apply vec_inv|rewrite !Capacity_vec]; solve_length.
  - by rewrite Erase_out_of_range by (rewrite size_vec; lia).
Qed.

Lemma copy_assign_from_keeps o v w :
  Vector_inv o → Vector_inv v → keeps true v (copy_assign_from o v w).
Proof.
  intros (ys & d & Hd & ->)%inv_vec (xs & c & Hl & ->)%inv_vec.
  rewrite copy_assign_from_vec by done.
  repeat case_decide; try destruct (charge _ w); simpl;
    (split; [apply vec_inv|rewrite !Capacity_vec]; solve_length).
Qed.

(** *** Every public operation, on vectors named by reference *)

Lemma Store_inv_insert (st : gmap nat (Vector T)) r v :
  Store_inv st → Vector_inv v → Store_inv (<[r := v]> st).
Proof.
  intros Hst Hv r' v'. destruct (decide (r = r')) as [->|Hne].
  - rewrite lookup_insert_eq. by intros [= <-].
  - rewrite lookup_insert_ne by done. apply Hst.
Qed.

Lemma Store_inv_bounded (st : gmap nat (Vector T)) :
  Store_inv st → sizes_bounded st.
Proof. intros Hst r v Hv. by destruct (Hst r v Hv). Qed.

Lemma sizes_bounded_insert (st : gmap nat (Vector T)) r v :
  sizes_bounded st → size_ v ≤ Capacity v → sizes_bounded (<[r := v]> st).
Proof.
  intros Hst Hv r' v'. destruct (decide (r = r')) as [->|Hne].
  - rewrite lookup_insert_eq. by intros [= <-].
  - rewrite lookup_insert_ne by done. apply Hst.
Qed.

Lemma capacities_kept_refl (st : gmap nat (Vector T)) : capacities_kept st st.
Proof. intros r v v' Hv Hv'. by simplify_eq. Qed.

Lemma capacities_kept_insert (st : gmap nat (Vector T)) r v v' :
  st !! r = Some v → Capacity v ≤ Capacity v' →
  capacities_kept st (<[r := v']> st).
Proof.
  intros Hv Hc r' u u' Hu. destruct (decide (r = r')) as [->|Hne].
  - rewrite lookup_insert_eq. intros [= <-]. by simplify_eq.
  - rewrite lookup_insert_ne by done. intros. by simplify_eq.
Qed.

Lemma capacities_kept_fresh (st : gmap nat (Vector T)) r v' :
  st !! r = None → capacities_kept st (<[r := v']> st).
Proof.
  intros Hv r' u u' Hu. destruct (decide (r = r')) as [->|Hne].
  - by simplify_eq.
  - rewrite lookup_insert_ne by done. intros. by simplify_eq.
Qed.

Lemma method_sound (strong : bool) this f (st : gmap nat (Vector T)) v w :
  Store_inv st → st !! this = Some v → keeps strong v (f v w) →
  match method this f st w with
  | Ok st' _ => Store_inv st' ∧ capacities_kept st st'
  | Exn st' _ =>
      (strong = true → Store_inv st')
      ∧ sizes_bounded st' ∧ capacities_kept st st'
  | Undefined => True
  end.
Proof.
  intros Hst Hv Hk. unfold method. rewrite Hv.
  destruct (f v w) as [v' w'|v' w'|]; simpl in *; [| |done].
  - destruct Hk. eauto using Store_inv_insert, capacities_kept_insert.
  - destruct Hk as [Hi Hc]. split_and!.
    + intros ->. by apply Store_inv_insert.
    + apply sizes_bounded_insert; [by apply Store_inv_bounded|].
      destruct strong; [by destruct Hi|done].
    + by eapply capacities_kept_insert.
Qed.

Lemma method_exec_sound (strong : bool) op this f
    (st : gmap nat (Vector T)) w :
  Store_inv st →
  (strong = false → inserts op = true) →
  (∀ v, st !! this = Some v → keeps strong v (f v w)) →
  exec_sound op st (method this f st w).
Proof.
  intros Hst Hs Hk. destruct (st !! this) as [v|] eqn:Hv.
  - pose proof (method_sound strong this f st v w Hst Hv (Hk v eq_refl)) as H.
    unfold exec_sound. destruct (method this f st w); [| |done].
    + by destruct H.
    + destruct H as (H1 & H2 & H3). split_and!; [|done..].
      intros Hi. apply H1. destruct strong; [done|].
      rewrite Hs in Hi; done.
  - unfold method. by rewrite Hv.
Qed.

Lemma construct_sound op this v (st : gmap nat (Vector T)) w :
  Store_inv st → Vector_inv v →
  exec_sound op st (construct this (Ok (Some v) w) st).
Proof.
  intros Hst Hv. unfold construct.
  destruct (st !! this) eqn:Hthis; [done|]. simpl.
  split; [by apply Store_inv_insert|]. intros _.
  by apply capacities_kept_fresh.
Qed.

Lemma Vector_default_inv : Vector_inv (Vector_default (T:=T)).
Proof. apply (vec_inv [] 0). simpl. lia. Qed.

Lemma Swap_ref_sound op this other (st : gmap nat (Vector T)) w :
  Store_inv st → exchanges op = true →
  exec_sound op st (lift (Swap_ref this other st) w).
Proof.
  intros Hst Hop.
  destruct (st !! this) as [a|] eqn:Ha; cycle 1.
  { unfold Swap_ref, swap_member. by rewrite Ha. }
  destruct (st !! other) as [b|] eqn:Hb; cycle 1.
  { unfold Swap_ref, swap_member. by rewrite Ha, Hb. }
  destruct (decide (this = other)) as [->|Hne].
  - rewrite (Swap_ref_self st other a Ha). simpl. split; [done|].
    by rewrite Hop.
  - rewrite (Swap_ref_ne st this other a b) by done. simpl.
    split; [|by rewrite Hop].
    apply Store_inv_insert; [apply Store_inv_insert|]; eauto.
Qed.

(** Whatever a public operation does within its contract, the invariant
    holds when it returns; it also holds when it throws, except after
    an insertion before a position; and no capacity becomes smaller,
    except where blocks change hands. *)
Lemma exec_is_sound op (st : gmap nat (Vector T)) w :
  Store_inv st → valid_position op st → exec_sound op st (exec op st w).
Proof.
  intros Hst Hpos. destruct op; cbn [exec].
  - apply construct_sound; [done|apply Vector_default_inv].
  - rewrite Vector_sized_vec. cbn [fmap option_fmap option_map lift].
    apply construct_sound; [done|]. apply vec_inv. solve_length.
  - destruct (st !! other) as [o|] eqn:Ho; [|done].
    destruct (inv_vec o (Hst _ _ Ho)) as (xs & c & Hl & ->).
    rewrite Vector_copy_vec. destruct (charge (length xs) w).
    + apply construct_sound; [done|]. by apply vec_inv.
    + unfold construct. destruct (st !! this); [done|]. simpl.
      split_and!; eauto using Store_inv_bounded, capacities_kept_refl.
  - destruct (st !! other) as [o|] eqn:Ho; [|done].
    unfold Vector_move, RawMemory_move. unfold construct.
    destruct (<[other:=_]> st !! this) eqn:Hthis; [done|]. simpl.
    split; [|done].
    apply Store_inv_insert; [apply Store_inv_insert|]; [done|..].
    + apply (vec_inv [] 0). simpl. lia.
    + specialize (Hst _ _ Ho). by destruct o as [[??]?].
  - unfold copy_assign. destruct (st !! other) as [o|] eqn:Ho; [|done].
    case_decide as Hne.
    + apply (method_exec_sound true); [done..|].
      intros v Hv. apply copy_assign_from_keeps; eauto.
    + apply (method_exec_sound true); [done..|].
      intros v Hv. simpl. split; [|done].
      assert (this = other) as -> by (destruct (decide (this = other)); done).
      rewrite Ho in Hv. injection Hv as <-.
      specialize (Hst _ _ Ho). by destruct o.
  - by apply Swap_ref_sound.
  - apply (method_exec_sound true); [done..|].
    intros v Hv. apply Resize_keeps; eauto.
  - apply (method_exec_sound true); [done..|].
    intros v Hv. apply EmplaceBack_keeps; eauto.
  - apply (method_exec_sound true); [done..|].
    intros v Hv. apply EmplaceBack_keeps; eauto.
  - apply (method_exec_sound true); [done..|].
    intros v Hv. apply PopBack_keeps; eauto.
  - apply (method_exec_sound false); [done..|].
    intros v Hv. apply Emplace_keeps; eauto.
  - apply (method_exec_sound false); [done..|].
    intros v Hv. apply Emplace_keeps; eauto.
  - apply (method_exec_sound true); [done..|].
    intros v Hv. apply Erase_keeps; eauto.
  - apply (method_exec_sound true); [done..|].
    intros v Hv. apply Reserve_keeps; eauto.
  - by apply Swap_ref_sound.
  - destruct (st !! this) as [v|] eqn:Hv; [|done].
    destruct (Vector_destroy v w) as [w'|]; [|done]. simpl. split.
    + intros r u [_ Hu]%lookup_delete_Some. eauto.
    + intros _ r u u' Hu [_ Hu']%lookup_delete_Some. by simplify_eq.
Qed.

(** *** Runs of appends *)

Lemma PushBack_all_outcome args : ∀ xs c w,
  length xs ≤ c →
  outcome w
    (λ v', ∃ c', v' = vec (xs ++ (arg_value <$> args)) c'
                 ∧ length xs + length args ≤ c')
    (λ _ _, True)
    (PushBack_all args (vec xs c) w).
Proof.
  induction args as [|a args IH]; intros xs c w Hl.
  { simpl. constructor; [|apply calm_refl]. exists c.
    by rewrite app_nil_r, Nat.add_0_r. }
  cbn [PushBack_all]. unfold PushBack.
  destruct (EmplaceBack_outcome a xs c w Hl) as [v1 w1 -> Hw|v1 w1 _ Hw];
    [|by constructor].
  pose proof (grown_capacity_gt (length xs)) as Hg.
  eapply outcome_world; [exact Hw|].
  eapply outcome_weaken; [apply IH|..]; [|simpl|done].
  - case_decide; solve_length.
  - intros v' (c' & -> & Hc'). exists c'.
    rewrite <- app_assoc. split; [done|]. solve_length.
Qed.


(** *** Insert and erase *)


(** *** PopBack and Erase leave the storage in place *)

Lemma move_assign_slot_frame buf s d buf' :
  move_assign_slot buf s d = Some buf' →
  length buf' = length buf
  ∧ ∀ i, i ≠ s → i ≠ d → buf' !! i = buf !! i.
Proof.
  unfold move_assign_slot, assign. destruct (load buf s) as [x|]; [|done].
  cbn [mbind option_bind].
  destruct (buf !! d) as [[y|]|]; try done. cbn [mbind option_bind].
  intros [= <-]. split; [by rewrite !length_insert|].
  intros i Hs Hd. by rewrite !list_lookup_insert_ne.
Qed.

Lemma std_move_below n : ∀ buf first d_first buf',
  std_move buf first n d_first = Some buf' →
  length buf' = length buf
  ∧ ∀ i, i < first → i < d_first → buf' !! i = buf !! i.
Proof.
  induction n as [|n IH]; intros buf first d_first buf'; simpl.
  { by intros [= <-]. }
  destruct (move_assign_slot buf first d_first) as [buf1|] eqn:H1; [|done].
  cbn [mbind option_bind]. intros [Hl Hi]%IH.
  apply move_assign_slot_frame in H1 as [Hl1 Hi1]. split; [congruence|].
  intros i ??. rewrite Hi, Hi1 by lia. done.
Qed.

Lemma PopBack_below v v' :
  PopBack v = Some v' →
  Capacity v' = Capacity v
  ∧ length (buffer_ (data_ v')) = length (buffer_ (data_ v))
  ∧ ∀ i, i < size_ v - 1 →
      buffer_ (data_ v') !! i = buffer_ (data_ v) !! i.
Proof.
  unfold PopBack, RawMemory_plus, Destroy, GetAddress.
  case_decide; [|by intros [= <-]].
  case_decide; [|done]. cbn [mbind option_bind].
  destruct (buffer_ (data_ v) !! (size_ v - 1)) as [[x|]|]; try done.
  cbn [mbind option_bind]. intros [= <-]. cbn.
  split_and!; [done|by rewrite length_insert|].
  intros i Hi. by rewrite list_lookup_insert_ne by lia.
Qed.

(** C10: PopBack and Erase return on every well-formed vector (Erase for a
    position below the size), and whenever they return, on whatever vector,
    the capacity and the block are those from before the call and the slots
    below the affected position are unchanged. *)
Theorem C10_storage_kept v :
  (Vector_inv v → is_Some (PopBack v))
  ∧ (∀ k, Vector_inv v → k < Size v → is_Some (Erase k v))
  ∧ (∀ v', PopBack v = Some v' →
       Capacity v' = Capacity v
       ∧ length (buffer_ (data_ v')) = length (buffer_ (data_ v))
       ∧ ∀ i, i < Size v - 1 →
           buffer_ (data_ v') !! i = buffer_ (data_ v) !! i)
  ∧ (∀ k v', Erase k v = Some v' →
       Capacity v' = Capacity v
       ∧ length (buffer_ (data_ v')) = length (buffer_ (data_ v))
       ∧ ∀ i, i < k → buffer_ (data_ v') !! i = buffer_ (data_ v) !! i).
Proof.
  split_and!.
  - intros (xs & c & Hl & ->)%inv_vec. rewrite PopBack_vec by done. eauto.
  - intros k (xs & c & Hl & ->)%inv_vec Hk. unfold Size in Hk.
    rewrite size_vec in Hk. rewrite Erase_vec_at by done. eauto.
  - apply PopBack_below.
  - intros k v'. unfold Erase, RawMemory_plus.
    case_decide; [|done]. cbn [mbind option_bind].
    case_decide as Hk; [|done].
    destruct (std_move _ _ _ _) as [buf|] eqn:Hm; [|done].
    cbn [mbind option_bind]. intros (Hc & Hl & Hi)%PopBack_below.
    apply std_move_below in Hm as [Hl2 Hi2].
    unfold GetAddress, set_buffer, with_buffer in *.
    cbn in Hc, Hl, Hi. split_and!; [done|congruence|].
    intros i Hik. rewrite Hi, Hi2 by lia. done.
Qed.

(** C8: PopBack on an empty vector changes nothing; on a non-empty
    well-formed vector it returns, turns the last live slot into a raw one
    and leaves every other slot as it was, decrements the size by one,
    keeps the capacity, and the elements are those before without the
    last. *)
Theorem C8_PopBack v :
  (Size v = 0 → PopBack v = Some v)
  ∧ (Vector_inv v → Size v ≠ 0 →
       ∃ v', PopBack v = Some v'
         ∧ Size v' = Size v - 1
         ∧ Capacity v' = Capacity v
         ∧ buffer_ (data_ v') = <[Size v - 1 := None]> (buffer_ (data_ v))
         ∧ is_Some (load (buffer_ (data_ v)) (Size v - 1))
         ∧ elements v' = take (Size v - 1) (elements v)
         ∧ Vector_inv v').
Proof.
  split.
  - intros H0. unfold PopBack. by case_decide.
  - intros Hinv Hne. pose proof Hinv as (Hsz & Hlen & Hlive & Hraw).
    destruct (Hlive (Size v - 1)) as [x Hx]; [unfold Size in *; lia|].
    destruct (inv_vec v Hinv) as (xs & c & Hl & ->).
    rewrite PopBack_vec by done. eexists. split; [done|].
    unfold Size in *. rewrite size_vec in *.
    split_and!; [solve_length|done| |eauto|
                 by rewrite !elements_vec|apply vec_inv; solve_length].
    destruct xs as [|y xs _] using rev_ind; [done|].
    rewrite length_app, Nat.add_sub, take_app_length. cbn [vec data_ buffer_].
    rewrite length_app, fmap_app, <- app_assoc. cbn [fmap list_fmap app length].
    rewrite insert_frame by solve_length.
    rewrite (raw_cons c (length xs)) by solve_length.
    do 3 f_equal. lia.
Qed.

(** *** Assignment of a vector to itself *)

(** C9: copy-assigning a vector to itself and move-assigning it to itself
    return and leave the vector, hence its size, its capacity and all its
    elements, and every other vector unchanged. *)
Theorem C9_self_assignment (st : gmap nat (Vector T)) (this : nat) v w :
  st !! this = Some v →
  copy_assign this this st w = Ok st w
  ∧ move_assign this this st w = Ok st w.
Proof.
  intros Hv. split.
  - unfold copy_assign, method. rewrite Hv. case_decide; [done|].
    f_equal. rewrite insert_id; [done|]. rewrite Hv. by destruct v.
  - unfold move_assign. by rewrite (Swap_ref_self st this v Hv).
Qed.

(** *** Calls within their contract return *)

Lemma callable_valid_position op (st : gmap nat (Vector T)) :
  callable op st → valid_position op st.
Proof.
  destruct op; simpl; try done; intros (v & Hv & Hk) v' Hv'; by simplify_eq.
Qed.




(** *** The invariant *)


(** *** The capacity *)

Lemma method_Ok_inv this f (st st' : gmap nat (Vector T)) w w' :
  method this f st w = Ok st' w' →
  ∃ v v',
    st !! this = Some v ∧ f v w = Ok v' w' ∧ st' = <[this := v']> st.
Proof.
  unfold method. destruct (st !! this) as [v|]; [|done].
  destruct (f v w) as [v' w1| |] eqn:Hf; try done.
  intros [= <- <-]. eauto.
Qed.

Lemma EmplaceBack_capacity a v w v' w' :
  Vector_inv v → EmplaceBack a v w = Ok v' w' →
  Capacity v' = if decide (Size v = Capacity v)
                then 1 `max` (2 * Size v) else Capacity v.
Proof.
  intros (xs & c & Hl & ->)%inv_vec He.
  pose proof (EmplaceBack_outcome a xs c w Hl) as H. rewrite He in H.
  inversion H as [? ? -> _|]. unfold Size.
  rewrite !Capacity_vec, size_vec. by rewrite grown_capacity_max.
Qed.

Lemma Emplace_capacity k a v w v' w' :
  Vector_inv v → k ≤ Size v → Emplace k a v w = Ok v' w' →
  Capacity v' = if decide (Size v = Capacity v)
                then 1 `max` (2 * Size v) else Capacity v.
Proof.
  intros (xs & c & Hl & ->)%inv_vec Hk He.
  pose proof (Emplace_outcome_at k xs a c w Hk Hl) as H. rewrite He in H.
  inversion H as [? ? -> _|]. unfold Size.
  rewrite !Capacity_vec, size_vec. by rewrite grown_capacity_max.
Qed.

(** C4, as amended: an append or an insert that finds the vector full
    leaves it with capacity max(1, 2 * size), and one that finds room leaves
    the capacity as it was; no public operation other than Swap, move
    assignment and move construction, which hand blocks over, makes the
    capacity of any vector smaller, whether it returns or throws; copy
    assignment from a source whose size exceeds the capacity sets the
    capacity to the size of the source, which is larger. *)
Theorem C4_capacity (op : Op T) (st : gmap nat (Vector T)) w :
  Store_inv st → callable op st →
  (∀ st' w', exec op st w = Ok st' w' ∨ exec op st w = Exn st' w' →
     exchanges op = false → capacities_kept st st')
  ∧ (∀ this v st' w' v',
       adds_to op = Some this → st !! this = Some v →
       exec op st w = Ok st' w' → st' !! this = Some v' →
       Capacity v' = if decide (Size v = Capacity v)
                     then 1 `max` (2 * Size v) else Capacity v)
  ∧ (∀ this other v o st' w' v',
       op = CopyAssign this other →
       st !! this = Some v → st !! other = Some o → Capacity v < Size o →
       exec op st w = Ok st' w' → st' !! this = Some v' →
       Capacity v' = Size o ∧ Capacity v < Capacity v').
Proof.
  intros Hst Hcall.
  pose proof (exec_is_sound op st w Hst (callable_valid_position _ _ Hcall))
    as H.
  split_and!.
  - intros st' w' [He|He] Hop; rewrite He in H.
    + destruct H as [_ H]. by apply H.
    + by destruct H as (_ & _ & H).
  - intros this v st' w' v' Hop Hv He Hv'.
    destruct op; simplify_eq/=.
    + apply method_Ok_inv in He as (u & u' & Hu & Hf & ->).
      rewrite lookup_insert_eq in Hv'. simplify_eq.
      eapply EmplaceBack_capacity; [|done]. eauto.
    + apply method_Ok_inv in He as (u & u' & Hu & Hf & ->).
      rewrite lookup_insert_eq in Hv'. simplify_eq.
      eapply EmplaceBack_capacity; [|done]. eauto.
    + apply method_Ok_inv in He as (u & u' & Hu & Hf & ->).
      rewrite lookup_insert_eq in Hv'. simplify_eq.
      destruct Hcall as (u0 & Hu0 & Hk). simplify_eq.
      eapply Emplace_capacity; [|done..]. eauto.
    + apply method_Ok_inv in He as (u & u' & Hu & Hf & ->).
      rewrite lookup_insert_eq in Hv'. simplify_eq.
      destruct Hcall as (u0 & Hu0 & Hk). simplify_eq.
      eapply Emplace_capacity; [|done..]. eauto.
  - intros this other v o st' w' v' -> Hv Ho Hlt He Hv'.
    cbn [exec] in He. unfold copy_assign in He. rewrite Ho in He.
    destruct (Hst _ _ Hv) as (Hsz & _).
    case_decide as Hne; cycle 1.
    { assert (this = other) as -> by (destruct (decide (this = other)); done).
      simplify_eq. unfold Size in *. lia. }
    apply method_Ok_inv in He as (u & u' & Hu & Hf & ->).
    rewrite lookup_insert_eq in Hv'. simplify_eq.
    destruct (inv_vec _ (Hst _ _ Hv)) as (xs & c & Hl & ->).
    destruct (inv_vec _ (Hst _ _ Ho)) as (ys & d & Hd & ->).
    rewrite copy_assign_from_vec in Hf by done.
    unfold Size in *. rewrite Capacity_vec, size_vec in *.
    case_decide; [|lia]. destruct (charge (length ys) w); [|done].
    injection Hf as <- <-. rewrite Capacity_vec. lia.
Qed.

(** *** Resizing down and up again *)

(** Resizing to a smaller size and back keeps the prefix and fills the
    tail with default-initialised objects. *)

Lemma Resize_down_up k xs c w :
  k ≤ length xs → length xs ≤ c →
  Resize k (vec xs c) w = Ok (vec (take k xs) c) w
  ∧ Resize (length xs) (vec (take k xs) c) w
    = Ok (vec (take k xs ++ replicate (length xs - k) default_init) c) w.
Proof.
  intros Hk Hl. split.
  - rewrite Resize_vec by done. case_decide; [lia|done].
  - rewrite Resize_vec by solve_length.
    rewrite length_take, Nat.min_l by done.
    destruct (decide (k = length xs)) as [->|Hne].
    + case_decide; [lia|]. rewrite Nat.sub_diag, app_nil_r.
      by rewrite !firstn_all.
    + case_decide; [|lia]. case_decide; [lia|done].
Qed.

(** ** Further properties of the operations *)

Lemma calm_leaked w w' : calm w w' → leaked w' = leaked w.
Proof. by intros [? _]. Qed.





(** X4: Erase at position k < size of a well-formed vector removes exactly
    the element at k: the elements before and after it keep their order,
    the size drops by one and the capacity stays; at a position >= size
    (which includes end()) the call is outside its contract. *)
Theorem X4_Erase (k : nat) v :
  Vector_inv v →
  (k < Size v →
     ∃ v', Erase k v = Some v'
       ∧ elements v' = take k (elements v) ++ drop (S k) (elements v)
       ∧ Size v' = Size v - 1 ∧ Capacity v' = Capacity v ∧ Vector_inv v')
  ∧ (Size v ≤ k → Erase k v = None).
Proof.
  intros (xs & c & Hl & ->)%inv_vec. unfold Size.
  rewrite size_vec, elements_vec, Capacity_vec. split.
  - intros Hk. rewrite Erase_vec_at by done. eexists; split; [done|].
    rewrite elements_vec, size_vec, Capacity_vec.
    split_and!; [done|solve_length|done|apply vec_inv; solve_length].
  - intros Hk. apply Erase_out_of_range. by rewrite size_vec.
Qed.



(** X7: the copy constructor, given a well-formed vector, returns when no
    copy constructor of an element throws; the copy has the elements of the
    source, in a block of exactly as many slots as the source has elements;
    when an element's copy throws no vector results and nothing has
    leaked. *)
Theorem X7_Vector_copy (other : Vector T) w :
  Vector_inv other →
  (budget w = None → ∃ v, Vector_copy other w = Ok (Some v) w)
  ∧ (∀ r w', Vector_copy other w = Ok r w' →
       ∃ v, r = Some v
         ∧ elements v = elements other ∧ Size v = Size other
         ∧ Capacity v = Size other
         ∧ Vector_inv v ∧ leaked w' = leaked w)
  ∧ (∀ r w', Vector_copy other w = Exn r w' →
       r = None ∧ leaked w' = leaked w).
Proof.
  intros (xs & c & Hl & ->)%inv_vec. unfold Size.
  rewrite Vector_copy_vec, size_vec, elements_vec. split_and!.
  - intros Hb. rewrite charge_None by done. eauto.
  - intros r w'. destruct (charge (length xs) w) as [w1|w1] eqn:Hc; [|done].
    intros [= <- <-]. eexists; split; [done|].
    rewrite elements_vec, size_vec, Capacity_vec.
    split_and!; [done..|by apply vec_inv|].
    apply calm_leaked. solve_world.
  - intros r w'. destruct (charge (length xs) w) as [w1|w1] eqn:Hc; [done|].
    intros [= <- <-]. split; [done|]. by apply charge_Thrown in Hc as [_ ?].
Qed.


(** X9: Swap between two different vectors, and move assignment, which is
    that Swap, exchange the two vectors whole, leave every other vector as
    it is, cannot throw, and done a second time restore the store. *)
Theorem X9_Swap (this other : nat) (st : gmap nat (Vector T)) a b w :
  this ≠ other → st !! this = Some a → st !! other = Some b →
  ∃ st',
    Swap_ref this other st = Some st'
    ∧ move_assign this other st w = Ok st' w
    ∧ st' !! this = Some b ∧ st' !! other = Some a
    ∧ (∀ r, r ≠ this → r ≠ other → st' !! r = st !! r)
    ∧ Swap_ref this other st' = Some st.
Proof.
  intros Hne Ha Hb. unfold move_assign.
  rewrite (Swap_ref_ne st this other a b) by done.
  destruct (lookup_swapped st this other b a Hne) as [Hb' Ha'].
  eexists; split_and!; [done..| |].
  - intros r ? ?. by rewrite !lookup_insert_ne by done.
  - rewrite (Swap_ref_ne _ this other b a) by done. f_equal.
    apply map_eq. intros r.
    destruct (decide (r = other)) as [->|];
      [by rewrite lookup_insert_eq|rewrite lookup_insert_ne by done].
    destruct (decide (r = this)) as [->|];
      [by rewrite lookup_insert_eq|by rewrite !lookup_insert_ne by done].
Qed.

(** X10: on a well-formed vector operator[] at an index below the size
    reads the element at that position of the element sequence, and at any
    other index its assertion fails. *)
Theorem X10_at_index v (i : nat) :
  Vector_inv v →
  at_index v i = elements v !! i
  ∧ (is_Some (at_index v i) ↔ i < Size v).
Proof.
  intros (xs & c & Hl & ->)%inv_vec. unfold Size.
  rewrite at_index_vec, elements_vec, size_vec by done.
  split; [done|]. apply lookup_lt_is_Some.
Qed.

(** X11: the move constructor hands the block and the size of its source
    to the new vector and leaves the source as a default-constructed one:
    no elements, no block, capacity 0; the new vector has the elements the
    source had. *)
Theorem X11_Vector_move (other : Vector T) :
  Vector_inv other →
  ∃ v o',
    Vector_move other = (v, o')
    ∧ o' = Vector_default
    ∧ elements v = elements other ∧ Capacity v = Capacity other
    ∧ Vector_inv v ∧ Vector_inv o'.
Proof.
  intros Hinv. destruct other as [[buf c] n]. do 2 eexists.
  split; [done|]. split_and!; [done..|].
  apply (Vector_default_inv).
Qed.

(** *** Growth by appends *)





(** *** Counting copy constructor invocations *)








(** *** What the operations leak *)




Lemma copy_ctor_Thrown_leaked w w' :
  copy_ctor w = Thrown w' → leaked w' = leaked w.
Proof. rewrite copy_ctor_charge. by intros [_ ?]%charge_Thrown. Qed.









(** *** Insertion in place, appends with room, round trips *)




Lemma PushBack_all_room args : ∀ xs c w,
  length xs + length args ≤ c →
  match PushBack_all args (vec xs c) w with
  | Ok v' w' => v' = vec (xs ++ (arg_value <$> args)) c ∧ calm w w'
  | Exn v' w' => leaked w' = leaked w ∧ Capacity v' = c
  | Undefined => False
  end.
Proof.
  induction args as [|a args IH]; intros xs c w Hl.
  { simpl. rewrite app_nil_r. split; [done|apply calm_refl]. }
  cbn [PushBack_all length fmap list_fmap] in *. unfold PushBack.
  rewrite EmplaceBack_vec by lia.
  destruct (construction a w) as [w1|w1] eqn:H1.
  - rewrite decide_False by lia.
    specialize (IH (xs ++ [arg_value a]) c w1).
    rewrite <- app_assoc in IH. cbn [app] in IH.
    apply construction_Constructed in H1.
    destruct (PushBack_all args _ w1) as [v' w'|v' w'|].
    + destruct IH as [-> Hw]; [solve_length|]. eauto using calm_trans.
    + destruct IH as [Hlk ?]; [solve_length|]. split; [|done].
      destruct H1 as [H1 _]. congruence.
    + apply IH. solve_length.
  - split; [|done]. destruct a; simpl in H1; [|done].
    by apply copy_ctor_Thrown_leaked.
Qed.

(** X16: appends to a well-formed vector that has room for all of them
    (as after Reserve) never change the capacity, whether they return or
    throw, and leak nothing; they return when no copy constructor throws,
    and when they return the elements are those from before followed by
    the appended values. *)
Theorem X16_appends_with_room (args : list (Arg T)) v w :
  Vector_inv v → Size v + length args ≤ Capacity v →
  (budget w = None → ∃ v', PushBack_all args v w = Ok v' w)
  ∧ (∀ v' w', PushBack_all args v w = Ok v' w' →
       elements v' = elements v ++ (arg_value <$> args)
       ∧ Capacity v' = Capacity v
       ∧ Vector_inv v' ∧ leaked w' = leaked w)
  ∧ (∀ v' w', PushBack_all args v w = Exn v' w' →
       Capacity v' = Capacity v ∧ leaked w' = leaked w).
Proof.
  intros (xs & c & Hl & ->)%inv_vec. unfold Size.
  rewrite size_vec, Capacity_vec, elements_vec. intros Hroom.
  pose proof (PushBack_all_room args xs c w Hroom) as H.
  destruct (PushBack_all args (vec xs c) w) as [v1 w1|v1 w1|] eqn:Hrun;
    [| |done].
  - destruct H as [-> [Hlk Hw]]. split_and!; [|intros ?? [= <- <-]|done].
    + intros Hb. rewrite (Hw Hb). eauto.
    + rewrite elements_vec, Capacity_vec.
      split_and!; [done..|apply vec_inv; solve_length|done].
  - destruct H as [Hlk Hc]. split_and!; [|done|by intros ?? [= <- <-]].
    intros Hb. exfalso.
    pose proof (PushBack_all_outcome args xs c w Hl) as Ho.
    destruct (outcome_total _ _ _ _ Hb Ho) as (? & Hok & _).
    congruence.
Qed.




(** *** Insertion into a full vector *)






(** *** Destruction *)

Lemma Destroy_Some buf i buf' :
  Destroy buf i = Some buf' →
  is_Some (load buf i) ∧ buf' = <[i := None]> buf.
Proof.
  unfold Destroy, load. destruct (buf !! i) as [[x|]|]; [|done..].
  intros [= <-]. eauto.
Qed.

Lemma DestroyN_Some n : ∀ buf first buf',
  DestroyN buf first n = Some buf' →
  length buf' = length buf
  ∧ (∀ i, first ≤ i < first + n →
       is_Some (load buf i) ∧ buf' !! i = Some None)
  ∧ (∀ i, ¬ (first ≤ i < first + n) → buf' !! i = buf !! i).
Proof.
  induction n as [|n IH]; intros buf first buf'; cbn [DestroyN].
  { intros [= <-]. split_and!; [done|lia|done]. }
  destruct (Destroy buf first) as [buf1|] eqn:Hd; [|done].
  cbn [mbind option_bind]. apply Destroy_Some in Hd as [Hlive ->].
  intros (Hlen & Hin & Hout)%IH. rewrite length_insert in Hlen.
  split_and!; [done|..].
  - intros i Hi. destruct (decide (i = first)) as [->|Hne].
    + split; [done|]. rewrite Hout by lia.
      apply list_lookup_insert_eq.
      destruct Hlive as [x Hx]. unfold load in Hx.
      apply lookup_lt_is_Some. destruct (buf !! first); [eauto|done].
    + destruct (Hin i) as [Hl ->]; [lia|]. split; [|done].
      unfold load in *. by rewrite list_lookup_insert_ne in Hl by done.
  - intros i Hi. rewrite Hout by lia.
    apply list_lookup_insert_ne. lia.
Qed.

Lemma DestroyN_is_Some n : ∀ buf first,
  (∀ i, first ≤ i < first + n → is_Some (load buf i)) →
  is_Some (DestroyN buf first n).
Proof.
  induction n as [|n IH]; intros buf first Hlive; cbn [DestroyN]; [eauto|].
  destruct (Hlive first) as [x Hx]; [lia|].
  unfold Destroy. unfold load in Hx.
  destruct (buf !! first) as [[y|]|] eqn:Hy; [|done..].
  cbn [mbind option_bind]. apply IH. intros i Hi.
  unfold load. rewrite list_lookup_insert_ne by lia. apply Hlive. lia.
Qed.

(** X22: DestroyN on n slots stays within its contract exactly when each
    of the n slots holds a live object; it then leaves these n slots raw
    and every other slot of the block as it was. *)
Theorem X22_DestroyN (buf : Block T) (first n : nat) :
  (is_Some (DestroyN buf first n)
   ↔ ∀ i, first ≤ i < first + n → is_Some (load buf i))
  ∧ (∀ buf', DestroyN buf first n = Some buf' →
       length buf' = length buf
       ∧ (∀ i, first ≤ i < first + n → buf' !! i = Some None)
       ∧ (∀ i, ¬ (first ≤ i < first + n) → buf' !! i = buf !! i)).
Proof.
  split; [split|].
  - intros [buf' Hd] i Hi.
    by apply (DestroyN_Some _ _ _ _ Hd).
  - apply DestroyN_is_Some.
  - intros buf' (Hlen & Hin & Hout)%DestroyN_Some.
    split_and!; [done| |done]. intros i Hi. by apply Hin.
Qed.

(** X23: the destructor destroys the objects in the slots below the size
    and releases the block: on a well-formed vector it leaks nothing; with
    a raw slot below the size it leaves its contract, destroying what is
    not alive; and whatever is alive at or above the size it leaks. *)
Theorem X23_Vector_destroy v w :
  (Vector_inv v → Vector_destroy v w = Some w)
  ∧ (∀ i, i < size_ v → load (buffer_ (data_ v)) i = None →
       Vector_destroy v w = None)
  ∧ (∀ w', Vector_destroy v w = Some w' →
       budget w' = budget w
       ∧ leaked w'
         = leaked w ++ omap id (drop (size_ v) (buffer_ (data_ v)))).
Proof.
  split_and!.
  - intros (xs & c & Hl & ->)%inv_vec. by apply Vector_destroy_vec.
  - intros i Hi Hraw. unfold Vector_destroy, GetAddress.
    destruct (DestroyN (buffer_ (data_ v)) 0 (size_ v)) as [buf'|] eqn:Hd;
      [|done].
    apply DestroyN_Some in Hd as (_ & Hin & _).
    destruct (Hin i) as [[x Hx] _]; [lia|]. congruence.
  - intros w'. unfold Vector_destroy, GetAddress.
    destruct (DestroyN (buffer_ (data_ v)) 0 (size_ v)) as [buf'|] eqn:Hd;
      [|done].
    intros [= <-]. split; [done|].
    unfold RawMemory_destroy, with_buffer. cbn [leaked buffer_]. f_equal.
    apply DestroyN_Some in Hd as (Hlen & Hin & Hout).
    assert (Hn : size_ v ≤ length (buffer_ (data_ v))).
    { destruct (size_ v) as [|n] eqn:Hs; [lia|].
      destruct (Hin n) as [[x Hx] _]; [lia|]. unfold load in Hx.
      enough (n < length (buffer_ (data_ v))) by lia.
      apply lookup_lt_is_Some.
      destruct (buffer_ (data_ v) !! n); [eauto|done]. }
    assert (buf' = replicate (size_ v) None
                   ++ drop (size_ v) (buffer_ (data_ v))) as ->.
    { apply list_eq. intros i.
      destruct (decide (i < size_ v)) as [Hi|Hi].
      - rewrite lookup_app_l by solve_length.
        rewrite lookup_replicate_2 by done. apply Hin. lia.
      - rewrite lookup_app_r by solve_length.
        rewrite length_replicate, lookup_drop, Hout by lia.
        f_equal. lia. }
    by rewrite omap_app, omap_raw.
Qed.

End Blocks.


(** ** The operations at concrete inputs *)

Lemma one_vector_inv : Store_inv one_vector.
Proof.
  unfold one_vector. intros r v [<- <-]%lookup_singleton_Some.
  apply vec_inv. simpl. lia.
Qed.

Lemma two_vectors_inv : Store_inv two_vectors.
Proof.
  apply Store_inv_insert; [|apply (vec_inv [] 0); simpl; lia].
  intros r v [<- <-]%lookup_singleton_Some. apply vec_inv. simpl. lia.
Qed.

(** C2: on a full Vector<Tracked> holding two elements, Insert at offset 1
    with the copy constructor throwing on its second invocation (the first
    relocation of the prefix) exits by exception with slot 1 of the
    original block destroyed although size is still 2, and with the new
    element leaked undestroyed; Insert at offset 0 with the same throw, and
    Insert at offset 1 with the throw on the third invocation (the throw
    hits the relocation of the suffix) leave the vector intact but again
    leak the new element. *)
Theorem C2_relocation_failure :
  PushBack_all [ByMove (Obj 1); ByMove (Obj 2)] Vector_default quiet
  = Ok full_pair quiet
  ∧ Insert 1 (ByCopy (Obj 9)) full_pair (throwing_after 1)
    = Exn torn_pair (mkWorld None [Obj 9])
  ∧ elements torn_pair ≠ elements full_pair
  ∧ ¬ Vector_inv torn_pair
  ∧ Insert 0 (ByCopy (Obj 9)) full_pair (throwing_after 1)
    = Exn full_pair (mkWorld None [Obj 9])
  ∧ Insert 1 (ByCopy (Obj 9)) full_pair (throwing_after 2)
    = Exn full_pair (mkWorld None [Obj 9]).
Proof.
  split_and!; try reflexivity; [by vm_compute|].
  intros (_ & _ & Hlive & _).
  assert (H : is_Some (load (buffer_ (data_ torn_pair)) 1))
    by (apply Hlive; vm_compute; lia).
  by destruct H.
Qed.


(** C4, counterexample: move assignment from an empty vector lowers the
    capacity of a vector of capacity 4 to 0; no copy assignment is
    involved. *)
Lemma C4_move_assign_shrinks :
  Store_inv two_vectors
  ∧ ∃ st', exec (MoveAssign 0 1) two_vectors quiet = Ok st' quiet
           ∧ Capacity <$> two_vectors !! 0 = Some 4
           ∧ Capacity <$> st' !! 0 = Some 0.
Proof.
  split; [exact two_vectors_inv|]. eexists. split_and!; reflexivity.
Qed.

(** C5: move construction hands block and capacity over and leaves the
    source empty; move assignment into a RawMemory of two slots leaves the
    source holding that block of two slots under the capacity 3, and move
    assignment into an empty RawMemory leaves the source without memory but
    with capacity 3: the source is not empty. *)
Theorem C5_move_assign_source :
  RawMemory_move (T:=IntObj) (RawMemory_new 3)
  = (RawMemory_new 3, RawMemory_default)
  ∧ RawMemory_move_assign (T:=IntObj) (RawMemory_new 2) (RawMemory_new 3)
    = (RawMemory_new 3, mkRawMemory (Allocate 2) 3)
  ∧ RawMemory_move_assign (T:=IntObj) RawMemory_default (RawMemory_new 3)
    = (RawMemory_new 3, mkRawMemory nullptr 3)
  ∧ mkRawMemory (T:=IntObj) (Allocate 2) 3 ≠ RawMemory_default
  ∧ mkRawMemory (T:=IntObj) nullptr 3 ≠ RawMemory_default.
Proof. split_and!; try reflexivity; discriminate. Qed.

(** C6: the scenario on Vector<int> reaches the elements 99, 2 in a block of
    four slots; Resize(4) then returns a vector whose elements 2 and 3 are
    default-initialised, that is indeterminate, not 0, whereas the sized
    constructor zeroes its elements.  On Vector<Tracked>, whose element
    type has a default constructor, resizing [Obj 1, Obj 2] to one element
    and back to two yields [Obj 1, Obj 0]. *)
Theorem C6_resize_int :
  int_scenario = Ok (vec [IntVal 99; IntVal 2] 4) quiet
  ∧ Resize 4 (vec [IntVal 99; IntVal 2] 4) quiet
    = Ok (vec [IntVal 99; IntVal 2; Indeterminate; Indeterminate] 4) quiet
  ∧ elements (vec [IntVal 99; IntVal 2; Indeterminate; Indeterminate] 4)
    ≠ [IntVal 99; IntVal 2; IntVal 0; IntVal 0]
  ∧ Vector_sized (T:=IntObj) 2 = Some (vec [IntVal 0; IntVal 0] 2)
  ∧ and_then (Resize 1 full_pair quiet) (Resize 2)
    = Ok (vec [Obj 1; Obj 0] 2) quiet.
Proof. split_and!; try reflexivity; discriminate. Qed.

(** *** The theorems at work *)



Lemma C4_capacity_witness :
  Store_inv one_vector
  ∧ callable (DoPushBack 0 (ByCopy (IntVal 3))) one_vector
  ∧ Store_inv two_vectors
  ∧ callable (CopyAssign 1 0) two_vectors
  ∧ capacities_kept one_vector {[0 := vec [IntVal 1; IntVal 2; IntVal 3] 4]}
  ∧ Capacity (vec [IntVal 1; IntVal 2; IntVal 3] 4)
    = (if decide (Size (vec [IntVal 1; IntVal 2] 2)
                  = Capacity (vec [IntVal 1; IntVal 2] 2))
       then 1 `max` (2 * Size (vec [IntVal 1; IntVal 2] 2))
       else Capacity (vec [IntVal 1; IntVal 2] 2))
  ∧ Capacity (vec [IntVal 1; IntVal 2; IntVal 3] 3)
    = Size (vec [IntVal 1; IntVal 2; IntVal 3] 4).
Proof.
  assert (Hpush : callable (DoPushBack 0 (ByCopy (IntVal 3))) one_vector).
  { exists (vec [IntVal 1; IntVal 2] 2). reflexivity. }
  assert (Hassign : callable (CopyAssign 1 0) two_vectors).
  { split; eexists; reflexivity. }
  split; [exact one_vector_inv|]. split; [exact Hpush|].
  split; [exact two_vectors_inv|]. split; [exact Hassign|]. split_and!.
  - apply (proj1 (C4_capacity _ one_vector quiet one_vector_inv Hpush)
             _ quiet); [left|]; reflexivity.
  - eapply (proj1 (proj2 (C4_capacity _ one_vector quiet one_vector_inv
                            Hpush))
              0 (vec [IntVal 1; IntVal 2] 2) _ quiet); reflexivity.
  - eapply (proj2 (proj2 (C4_capacity _ two_vectors quiet two_vectors_inv
                            Hassign))
             1 0 (vec [] 0) (vec [IntVal 1; IntVal 2; IntVal 3] 4)
             _ quiet (vec [IntVal 1; IntVal 2; IntVal 3] 3));
      try reflexivity.
    vm_compute. lia.
Defined.


Lemma C8_PopBack_witness :
  Size (Vector_default (T:=IntObj)) = 0
  ∧ PopBack (Vector_default (T:=IntObj)) = Some Vector_default
  ∧ Vector_inv (vec [IntVal 1; IntVal 2] 2)
  ∧ Size (vec [IntVal 1; IntVal 2] 2) ≠ 0
  ∧ ∃ v', PopBack (vec [IntVal 1; IntVal 2] 2) = Some v'
      ∧ Size v' = 1 ∧ Capacity v' = 2
      ∧ elements v' = [IntVal 1].
Proof.
  split; [reflexivity|].
  split; [apply (proj1 (C8_PopBack Vector_default)); reflexivity|].
  split; [apply vec_inv; simpl; lia|]. split; [simpl; lia|].
  destruct (proj2 (C8_PopBack (vec [IntVal 1; IntVal 2] 2)))
    as (v' & H1 & H2 & H3 & _ & _ & H6 & _);
    [apply vec_inv; simpl; lia|simpl; lia|].
  exists v'. split_and!; [exact H1|exact H2|exact H3|exact H6].
Defined.

Lemma C9_self_assignment_witness :
  one_vector !! 0 = Some (vec [IntVal 1; IntVal 2] 2)
  ∧ copy_assign 0 0 one_vector quiet = Ok one_vector quiet
  ∧ move_assign 0 0 one_vector quiet = Ok one_vector quiet.
Proof.
  split; [reflexivity|].
  apply (C9_self_assignment one_vector 0 (vec [IntVal 1; IntVal 2] 2) quiet).
  reflexivity.
Defined.

Lemma C10_storage_kept_witness :
  Vector_inv (vec [IntVal 1; IntVal 2] 2)
  ∧ 0 < Size (vec [IntVal 1; IntVal 2] 2)
  ∧ is_Some (PopBack (vec [IntVal 1; IntVal 2] 2))
  ∧ is_Some (Erase 0 (vec [IntVal 1; IntVal 2] 2))
  ∧ Capacity (vec [IntVal 2] 2) = Capacity (vec [IntVal 1; IntVal 2] 2).
Proof.
  split; [apply vec_inv; simpl; lia|]. split; [simpl; lia|].
  destruct (C10_storage_kept (vec [IntVal 1; IntVal 2] 2))
    as (Hpop & Herase & _ & Hframe).
  split; [apply Hpop, vec_inv; simpl; lia|].
  split; [apply Herase; [apply vec_inv|]; simpl; lia|].
  apply (Hframe 0). reflexivity.
Defined.

(** *** The further properties at work *)

Lemma full_pair_inv : Vector_inv full_pair.
Proof. apply (vec_inv [Obj 1; Obj 2] 2). simpl. lia. Qed.

Lemma roomy_pair_inv : Vector_inv roomy_pair.
Proof. apply (vec_inv [Obj 1; Obj 2] 4). simpl. lia. Qed.

Lemma int_pair_inv : Vector_inv (vec [IntVal 1; IntVal 2] 2).
Proof. apply vec_inv. simpl. lia. Qed.




Lemma X4_Erase_witness :
  Vector_inv (vec [IntVal 1; IntVal 2] 2)
  ∧ (∃ v', Erase 0 (vec [IntVal 1; IntVal 2] 2) = Some v'
       ∧ elements v' = [IntVal 2]
       ∧ Size v' = 1 ∧ Capacity v' = 2 ∧ Vector_inv v')
  ∧ Erase 2 (vec [IntVal 1; IntVal 2] 2) = None.
Proof.
  split; [exact int_pair_inv|]. split.
  - apply (proj1 (X4_Erase 0 (vec [IntVal 1; IntVal 2] 2) int_pair_inv)).
    simpl. lia.
  - apply (proj2 (X4_Erase 2 (vec [IntVal 1; IntVal 2] 2) int_pair_inv)).
    simpl. lia.
Defined.


Lemma X7_Vector_copy_witness :
  Vector_inv roomy_pair
  ∧ (∃ v, Vector_copy roomy_pair quiet = Ok (Some v) quiet)
  ∧ (∃ r w', Vector_copy roomy_pair (throwing_after 2) = Ok r w'
       ∧ ∃ v, r = Some v
         ∧ elements v = elements roomy_pair ∧ Size v = Size roomy_pair
         ∧ Capacity v = Size roomy_pair
         ∧ Vector_inv v ∧ leaked w' = leaked (throwing_after 2))
  ∧ (∃ r w', Vector_copy roomy_pair (throwing_after 1) = Exn r w'
       ∧ r = None ∧ leaked w' = leaked (throwing_after 1)).
Proof.
  split; [exact roomy_pair_inv|]. split_and!.
  - apply (proj1 (X7_Vector_copy roomy_pair quiet roomy_pair_inv)).
    reflexivity.
  - eexists _, _. split; [reflexivity|].
    apply (proj1 (proj2 (X7_Vector_copy roomy_pair (throwing_after 2)
                           roomy_pair_inv))).
    reflexivity.
  - eexists _, _. split; [reflexivity|].
    apply (proj2 (proj2 (X7_Vector_copy roomy_pair (throwing_after 1)
                           roomy_pair_inv))).
    reflexivity.
Defined.


Lemma X9_Swap_witness :
  0 ≠ 1
  ∧ two_vectors !! 0 = Some (vec [IntVal 1; IntVal 2; IntVal 3] 4)
  ∧ two_vectors !! 1 = Some (vec [] 0)
  ∧ ∃ st',
      Swap_ref 0 1 two_vectors = Some st'
      ∧ move_assign 0 1 two_vectors quiet = Ok st' quiet
      ∧ st' !! 0 = Some (vec [] 0)
      ∧ st' !! 1 = Some (vec [IntVal 1; IntVal 2; IntVal 3] 4)
      ∧ (∀ r, r ≠ 0 → r ≠ 1 → st' !! r = two_vectors !! r)
      ∧ Swap_ref 0 1 st' = Some two_vectors.
Proof.
  split; [lia|]. split; [reflexivity|]. split; [reflexivity|].
  apply (X9_Swap 0 1 two_vectors); [lia|reflexivity|reflexivity].
Defined.

Lemma X10_at_index_witness :
  Vector_inv (vec [IntVal 1; IntVal 2] 2)
  ∧ at_index (vec [IntVal 1; IntVal 2] 2) 1
    = elements (vec [IntVal 1; IntVal 2] 2) !! 1
  ∧ (is_Some (at_index (vec [IntVal 1; IntVal 2] 2) 2)
     ↔ 2 < Size (vec [IntVal 1; IntVal 2] 2)).
Proof.
  split; [exact int_pair_inv|]. split.
  - apply (proj1 (X10_at_index _ 1 int_pair_inv)).
  - apply (proj2 (X10_at_index _ 2 int_pair_inv)).
Defined.

Lemma X11_Vector_move_witness :
  Vector_inv (vec [IntVal 1; IntVal 2] 2)
  ∧ ∃ v o',
      Vector_move (vec [IntVal 1; IntVal 2] 2) = (v, o')
      ∧ o' = Vector_default
      ∧ elements v = elements (vec [IntVal 1; IntVal 2] 2)
      ∧ Capacity v = Capacity (vec [IntVal 1; IntVal 2] 2)
      ∧ Vector_inv v ∧ Vector_inv o'.
Proof.
  split; [exact int_pair_inv|]. apply X11_Vector_move. exact int_pair_inv.
Defined.





Lemma X16_appends_with_room_witness :
  Vector_inv roomy_pair
  ∧ Size roomy_pair + length [ByMove (Obj 3); ByCopy (Obj 4)]
    ≤ Capacity roomy_pair
  ∧ (∃ v', PushBack_all [ByMove (Obj 3); ByCopy (Obj 4)] roomy_pair quiet
           = Ok v' quiet)
  ∧ (∃ v' w',
       PushBack_all [ByMove (Obj 3); ByCopy (Obj 4)] roomy_pair quiet
       = Ok v' w'
       ∧ elements v' = [Obj 1; Obj 2; Obj 3; Obj 4]
       ∧ Capacity v' = 4 ∧ Vector_inv v' ∧ leaked w' = [])
  ∧ (∃ v' w',
       PushBack_all [ByMove (Obj 3); ByCopy (Obj 4)] roomy_pair
                    (throwing_after 0)
       = Exn v' w'
       ∧ Capacity v' = 4 ∧ leaked w' = []).
Proof.
  assert (Hroom : Size roomy_pair + length [ByMove (Obj 3); ByCopy (Obj 4)]
                  ≤ Capacity roomy_pair) by (vm_compute; lia).
  split; [exact roomy_pair_inv|]. split; [exact Hroom|]. split_and!.
  - apply (proj1 (X16_appends_with_room _ roomy_pair quiet roomy_pair_inv
                    Hroom)).
    reflexivity.
  - eexists _, _. split; [reflexivity|].
    exact (proj1 (proj2 (X16_appends_with_room _ roomy_pair quiet
                           roomy_pair_inv Hroom)) _ _ eq_refl).
  - eexists _, _. split; [reflexivity|].
    exact (proj2 (proj2 (X16_appends_with_room _ roomy_pair
                           (throwing_after 0) roomy_pair_inv Hroom))
             _ _ eq_refl).
Defined.






Lemma X22_DestroyN_witness :
  (is_Some (DestroyN [Some (Obj 1); None] 0 1)
   ↔ ∀ i, 0 ≤ i < 0 + 1 → is_Some (load [Some (Obj 1); None] i))
  ∧ DestroyN [Some (Obj 1); None] 0 1 = Some [None; None]
  ∧ length [@None Tracked; None] = length [Some (Obj 1); None]
  ∧ (∀ i, 0 ≤ i < 0 + 1 → [@None Tracked; None] !! i = Some None)
  ∧ (∀ i, ¬ (0 ≤ i < 0 + 1) →
       [@None Tracked; None] !! i = [Some (Obj 1); None] !! i).
Proof.
  split; [apply (proj1 (X22_DestroyN [Some (Obj 1); None] 0 1))|].
  split; [reflexivity|].
  apply (proj2 (X22_DestroyN [Some (Obj 1); None] 0 1)). reflexivity.
Defined.

Lemma X23_Vector_destroy_witness :
  Vector_inv full_pair
  ∧ Vector_destroy full_pair quiet = Some quiet
  ∧ 1 < size_ torn_pair
  ∧ load (buffer_ (data_ torn_pair)) 1 = None
  ∧ Vector_destroy torn_pair quiet = None
  ∧ Vector_destroy shifted_pair quiet = Some (mkWorld None [Obj 2])
  ∧ leaked (mkWorld None [Obj 2])
    = leaked (quiet (T:=Tracked))
      ++ omap id (drop (size_ shifted_pair) (buffer_ (data_ shifted_pair))).
Proof.
  assert (H1 : 1 < size_ torn_pair) by (vm_compute; lia).
  split; [exact full_pair_inv|].
  split; [exact (proj1 (X23_Vector_destroy full_pair quiet) full_pair_inv)|].
  split; [exact H1|]. split; [reflexivity|].
  split;
    [exact (proj1 (proj2 (X23_Vector_destroy torn_pair quiet)) 1 H1 eq_refl)|].
  split; [reflexivity|].
  exact (proj2 (proj2 (proj2 (X23_Vector_destroy shifted_pair quiet))
                 (mkWorld None [Obj 2]) eq_refl)).
Defined.
